(** * Default-branch synchronisation of an organisation's projects

    A shallow embedding of [src/scripts/sync/sync-org-projects.ts]
    ([isSourceConfigured], [updateOrgTargets], [updateTargets]) together
    with the collaborators it awaits, and the properties of the
    synchronisation engine proved over that embedding.

    Every external collaborator (feature-flag reader, target lister,
    project lister, default-branch fetcher, project updater, loggers,
    logging-path resolver) is an oracle of a [World]: a function of the
    calls made so far and of its arguments that either returns or throws.
    Each call is recorded, with its outcome, in the run's trace.

    [pMap] runs its mapper over the items one after the other in list
    order and stops at the first rejection that escapes a mapper: this is
    the schedule in which every mapper settles before the next one starts.

    [sync-projects-per-target.ts], [lib] and [common] are not among the
    sources: [syncProjectsForTarget] is modelled from the specification,
    and the unit tests of [sync-org-projects] fix the constants. *)

From stdpp Require Import base list strings gmap.
From Stdlib Require Import Permutation.

Open Scope string_scope.
Open Scope list_scope.

(** ** Values of the language *)

(** What a [catch (e)] clause can receive.  Reading [e.message] on [null]
    or [undefined] raises a TypeError; on any other value it yields the
    property, which may be absent (a rejected string, an array, ...). *)
Inductive JsThrown : Type :=
  | ThrownNullish
  | ThrownValue (message : option string).

(** [new Error(msg)] *)
Definition new_Error (msg : string) : JsThrown := ThrownValue (Some msg).

(** The TypeError raised by a property read on [null]/[undefined]. *)
Definition TypeError_message_of_nullish : JsThrown :=
  new_Error "Cannot read properties of undefined (reading 'message')".

(** [`${v}`] for a possibly undefined string. *)
Definition template (v : option string) : string :=
  match v with
  | Some s => s
  | None => "undefined"
  end.

Inductive outcome (A : Type) : Type :=
  | Returned (a : A)
  | Thrown (e : JsThrown).
Arguments Returned {A} a.
Arguments Thrown {A} e.

(** ** Data model ([lib/types], [sync-projects-per-target]) *)

(** Modelled from the spec: the type declarations of [lib/types] and of
    [sync-projects-per-target] are not among the sources; the records below
    have the attributes the spec lists for a Target, a Project, a
    ProjectUpdate and a ProjectUpdateFailure, under the field names of the
    objects the unit tests build.  The recorded branch of a project is
    nullable, and an update carries its target once it is returned by
    [syncProjectsForTarget]. *)
Record SnykTargetAttributes : Type := {
  displayName : string;
  isPrivate : bool;
  origin : string;
  remoteUrl : option string
}.

Record SnykTarget : Type := {
  attributes : SnykTargetAttributes;
  id : string;
  relationships_org_id : option string;
  type : string
}.

Record SnykProject : Type := {
  project_name : string;
  project_id : string;
  project_created : string;
  project_origin : string;
  project_type : string;
  branch : option string
}.

Record TargetFilters : Type := {
  limit : nat;
  filter_origin : string;
  excludeEmpty : bool
}.

Inductive ProjectUpdateType : Type := BRANCH.

Record ProjectUpdate : Type := {
  projectPublicId : string;
  from : option string;
  to : string;
  update_type : ProjectUpdateType;
  dryRun : bool;
  target : option SnykTarget
}.

Record ProjectUpdateFailure : Type := {
  failure : ProjectUpdate;
  errorMessage : string
}.

Record Projects : Type := {
  updated : list ProjectUpdate;
  failed : list ProjectUpdateFailure
}.

Record Meta : Type := { projects : Projects }.

(** The value [updateTargets] resolves to, and the [res] object of
    [updateOrgTargets]. *)
Record SyncResult : Type := {
  processedTargets : nat;
  meta : Meta
}.

(** [{ ...res, fileName, failedFileName }] *)
Record OrgSyncResult : Type := {
  fileName : string;
  failedFileName : string;
  org_processedTargets : nat;
  org_meta : Meta
}.

(** ** Calls to collaborators *)

Inductive Event : Type :=
  | EvGetFeatureFlag (flag orgId : string) (r : outcome bool)
  | EvIsGithubConfigured (r : outcome unit)
  | EvListTargets (orgId : string) (filters : TargetFilters)
      (r : outcome (list SnykTarget))
  | EvGetLoggingPath (r : outcome string)
  | EvListProjects (orgId targetId : string) (r : outcome (list SnykProject))
  | EvGetDefaultBranch (t : SnykTarget) (host : option string)
      (r : outcome string)
  | EvUpdateProject (orgId projectId branchName : string)
      (r : outcome SnykProject)
  | EvLogUpdatedProjects (orgId : string) (l : list ProjectUpdate)
      (r : outcome unit)
  | EvLogFailedToUpdateProjects (orgId : string)
      (l : list ProjectUpdateFailure) (r : outcome unit)
  | EvLogFailedSync (orgId : string) (t : SnykTarget)
      (errorMessage : option string) (loggingPath : string) (r : outcome unit)
  | EvConsoleWarn (msg : option string).

(** The collaborators.  The first argument of each oracle is the list of
    calls made before this one, oldest first. *)
Record World : Type := {
  getFeatureFlag : list Event -> string -> string -> outcome bool;
  isGithubConfigured : list Event -> outcome unit;
  listTargets : list Event -> string -> TargetFilters ->
                outcome (list SnykTarget);
  getLoggingPath : list Event -> outcome string;
  listProjects : list Event -> string -> string -> outcome (list SnykProject);
  getGithubReposDefaultBranch :
    list Event -> SnykTarget -> option string -> outcome string;
  updateProject : list Event -> string -> string -> string ->
                  outcome SnykProject;
  logUpdatedProjects : list Event -> string -> list ProjectUpdate ->
                       outcome unit;
  logFailedToUpdateProjects :
    list Event -> string -> list ProjectUpdateFailure -> outcome unit;
  logFailedSync : list Event -> string -> SnykTarget -> option string ->
                  string -> outcome unit;
  (** [path.resolve(dir, name)] *)
  path_resolve : string -> string -> string;
  (** calling, without receiver or arguments, the member of
      [Object.prototype] that has this name *)
  Object_prototype_call : string -> outcome unit
}.

(** ** Computations

    A computation reads the calls made so far and its frame of mutable
    local variables [L]; it yields an outcome, the calls it made, and the
    frame as it left it.  A throw keeps the calls and the assignments made
    before it. *)
Definition M (L A : Type) : Type :=
  list Event -> L -> outcome A * list Event * L.

Definition ret {L A} (a : A) : M L A :=
  fun _ l => (Returned a, [], l).

Definition throw {L A} (e : JsThrown) : M L A :=
  fun _ l => (Thrown e, [], l).

Definition bind {L A B} (m : M L A) (k : A -> M L B) : M L B :=
  fun h l =>
    match m h l with
    | (Returned a, evs, l1) =>
        match k a (h ++ evs) l1 with
        | (r, evs2, l2) => (r, evs ++ evs2, l2)
        end
    | (Thrown e, evs, l1) => (Thrown e, evs, l1)
    end.

Notation "x <- m ;; k" := (bind m (fun x => k))
  (at level 100, m at next level, right associativity).
Notation "m ;; k" := (bind m (fun _ => k))
  (at level 100, right associativity).

(** [try { m } catch (e) { handler e }] *)
Definition try_catch {L A} (m : M L A) (handler : JsThrown -> M L A) : M L A :=
  fun h l =>
    match m h l with
    | (Returned a, evs, l1) => (Returned a, evs, l1)
    | (Thrown e, evs, l1) =>
        match handler e (h ++ evs) l1 with
        | (r, evs2, l2) => (r, evs ++ evs2, l2)
        end
    end.

(** An awaited call to a collaborator. *)
Definition call {L A} (oracle : list Event -> outcome A)
    (record : outcome A -> Event) : M L A :=
  fun h l => let r := oracle h in (r, [record r], l).

(** An effect observed from outside that cannot fail. *)
Definition emit {L} (ev : Event) : M L unit :=
  fun _ l => (Returned tt, [ev], l).

Definition get {L} : M L L := fun _ l => (Returned l, [], l).
Definition modify {L} (f : L -> L) : M L unit :=
  fun _ l => (Returned tt, [], f l).

(** Calling a function that has its own local variables. *)
Definition invoke {L L' A} (init : L') (m : M L' A) : M L A :=
  fun h l =>
    match m h init with
    | (r, evs, _) => (r, evs, l)
    end.

(** [e.message] *)
Definition message_of {L} (e : JsThrown) : M L (option string) :=
  match e with
  | ThrownNullish => throw TypeError_message_of_nullish
  | ThrownValue m => ret m
  end.

(** [await pMap(items, mapper, { concurrency })] *)
Fixpoint pMap {L X} (mapper : X -> M L unit) (items : list X) : M L unit :=
  match items with
  | [] => ret tt
  | x :: rest => mapper x ;; pMap mapper rest
  end.

Definition result_of {L A} (r : outcome A * list Event * L) : outcome A :=
  r.1.1.
Definition events_of {L A} (r : outcome A * list Event * L) : list Event :=
  r.1.2.
Definition locals_of {L A} (r : outcome A * list Event * L) : L :=
  r.2.

(** ** Constants of [common] and [lib/types] *)

(** Modelled from the spec: the module [common] is not among the sources;
    the two fixed file names are the ones the unit tests of
    [updateOrgTargets] match the returned paths against. *)
Definition UPDATED_PROJECTS_LOG_NAME : string := "updated-projects.log".
Definition FAILED_UPDATE_PROJECTS_LOG_NAME : string :=
  "failed-to-update-projects.log".

(** Modelled from the spec: the enum [SupportedIntegrationTypesUpdateProject]
    of [lib/types] is not among the sources; the spec has a single supported
    source and the unit tests give its value. *)
Definition GITHUB : string := "github".

(** [Object.values(SupportedIntegrationTypesUpdateProject)] *)
Definition SupportedIntegrationTypesUpdateProject_values : list string :=
  [GITHUB].

(** ** Property reads on an object literal *)

(** The names every object literal inherits from [Object.prototype]. *)
Definition Object_prototype_properties : list string :=
  [ "constructor"; "__defineGetter__"; "__defineSetter__"; "hasOwnProperty";
    "__lookupGetter__"; "__lookupSetter__"; "isPrototypeOf";
    "propertyIsEnumerable"; "toString"; "valueOf"; "__proto__";
    "toLocaleString" ].

Inductive JsProperty (V : Type) : Type :=
  | Own (v : V)
  | Inherited (name : string)
  | Undefined.
Arguments Own {V} v.
Arguments Inherited {V} name.
Arguments Undefined {V}.

(** [obj[key]] for an object literal with the own properties [obj]. *)
Definition js_get {V} (obj : gmap string V) (key : string) : JsProperty V :=
  match obj !! key with
  | Some v => Own v
  | None =>
      if bool_decide (key ∈ Object_prototype_properties)
      then Inherited key
      else Undefined
  end.

(** ** [isSourceConfigured] *)

Definition isSourceConfigured (w : World) (origin : string)
    : JsProperty (list Event -> outcome unit) :=
  let getDefaultBranchGenerators : gmap string (list Event -> outcome unit) :=
    {[ GITHUB := isGithubConfigured w ]} in
  js_get getDefaultBranchGenerators origin.

Definition TypeError_not_a_function : JsThrown :=
  new_Error "isSourceConfigured(...) is not a function".

(** [f()] for the value [f] read from the table. *)
Definition apply_configured {L} (w : World)
    (f : JsProperty (list Event -> outcome unit)) : M L unit :=
  match f with
  | Own check => call check EvIsGithubConfigured
  | Inherited name =>
      fun _ l => (Object_prototype_call w name, [], l)
  | Undefined => throw TypeError_not_a_function
  end.

(** ** [syncProjectsForTarget] *)

(** What the decision for one project produces. *)
Inductive Decision : Type :=
  | NoOp
  | Update (u : ProjectUpdate)
  | Failure (f : ProjectUpdateFailure).

(** The text an upstream error contributes to a failure message: its
    [message] as a template prints it.  The decision never throws, so a
    rejection with [null] or [undefined] contributes the same text as a
    missing message. *)
Definition upstream_message (e : JsThrown) : string :=
  match e with
  | ThrownValue m => template m
  | ThrownNullish => template None
  end.

Definition update_failure_message (projectId : string) (e : JsThrown)
    : string :=
  "Failed to update project " +:+ projectId +:+ " via Snyk API. ERROR: "
    +:+ upstream_message e.

(** Modelled from the spec: [sync-projects-per-target.ts] is not among the
    sources.  This is the BranchDecisionMaker of the spec: nothing when the
    recorded branch is the default branch; otherwise a [ProjectUpdate],
    after the external update call unless [dryRun]; a rejected update call
    becomes a [ProjectUpdateFailure] and is never rethrown.  The text of the
    failure message is the one the unit test "updates several projects from
    the same target 1 failed 1 success" expects. *)
Definition BranchDecisionMaker {L} (w : World) (orgId : string)
    (project : SnykProject) (defaultBranch : string) (dry : bool)
    : M L Decision :=
  if bool_decide (branch project = Some defaultBranch) then ret NoOp
  else
    let record :=
      {| projectPublicId := project_id project;
         from := branch project;
         to := defaultBranch;
         update_type := BRANCH;
         dryRun := dry;
         target := None |} in
    if dry then ret (Update record)
    else
      try_catch
        (call (fun h => updateProject w h orgId (project_id project)
                          defaultBranch)
              (EvUpdateProject orgId (project_id project) defaultBranch) ;;
         ret (Update record))
        (fun e =>
           ret (Failure
                  {| failure := record;
                     errorMessage :=
                       update_failure_message (project_id project) e |})).

(** [{ ...u, target }] *)
Definition with_target (t : SnykTarget) (u : ProjectUpdate) : ProjectUpdate :=
  {| projectPublicId := projectPublicId u;
     from := from u;
     to := to u;
     update_type := update_type u;
     dryRun := dryRun u;
     target := Some t |}.

Definition failure_with_target (t : SnykTarget) (f : ProjectUpdateFailure)
    : ProjectUpdateFailure :=
  {| failure := with_target t (failure f); errorMessage := errorMessage f |}.

Definition push_updated (us : list ProjectUpdate) (p : Projects) : Projects :=
  {| updated := updated p ++ us; failed := failed p |}.

Definition push_failed (fs : list ProjectUpdateFailure) (p : Projects)
    : Projects :=
  {| updated := updated p; failed := failed p ++ fs |}.

(** Modelled from the spec: [sync-projects-per-target.ts] is not among the
    sources.  The work done for one project of the target: its decision,
    appended to the sequence it belongs to. *)
Definition syncProject (w : World) (orgId : string) (defaultBranch : string)
    (dry : bool) (project : SnykProject) : M Projects unit :=
  d <- BranchDecisionMaker w orgId project defaultBranch dry ;;
  match d with
  | NoOp => ret tt
  | Update u => modify (push_updated [u])
  | Failure f => modify (push_failed [f])
  end.

(** Modelled from the spec: [sync-projects-per-target.ts] is not among the
    sources.  This is the PerTargetProjectSynchronizer of the spec: list the
    projects of the target, fetch the default branch once, decide every
    project in listing order, attach the target to every record.  A throw of
    the project lister or of the default-branch fetcher propagates. *)
Definition syncProjectsForTarget {L} (w : World) (orgId : string)
    (t : SnykTarget) (dry : bool) (host : option string) : M L Projects :=
  invoke {| updated := []; failed := [] |}
    (ps <- call (fun h => listProjects w h orgId (id t))
                (EvListProjects orgId (id t)) ;;
     defaultBranch <- call (fun h => getGithubReposDefaultBranch w h t host)
                           (EvGetDefaultBranch t host) ;;
     pMap (syncProject w orgId defaultBranch dry) ps ;;
     l <- get ;;
     ret {| updated := map (with_target t) (updated l);
            failed := map (failure_with_target t) (failed l) |}).

(** ** [updateTargets] *)

(** The variables of [updateTargets] its mapper closes over. *)
Record TargetsLocals : Type := {
  var_processedTargets : nat;
  var_updatedProjects : list ProjectUpdate;
  var_failedProjects : list ProjectUpdateFailure
}.

Definition updatedProjects_push (us : list ProjectUpdate) (l : TargetsLocals)
    : TargetsLocals :=
  {| var_processedTargets := var_processedTargets l;
     var_updatedProjects := var_updatedProjects l ++ us;
     var_failedProjects := var_failedProjects l |}.

Definition failedProjects_push (fs : list ProjectUpdateFailure)
    (l : TargetsLocals) : TargetsLocals :=
  {| var_processedTargets := var_processedTargets l;
     var_updatedProjects := var_updatedProjects l;
     var_failedProjects := var_failedProjects l ++ fs |}.

Definition processedTargets_incr (l : TargetsLocals) : TargetsLocals :=
  {| var_processedTargets := var_processedTargets l + 1;
     var_updatedProjects := var_updatedProjects l;
     var_failedProjects := var_failedProjects l |}.

(** The statements of the [try] block that follow the await of
    [syncProjectsForTarget], for its result [r]. *)
Definition updateTargets_after_sync (w : World) (orgId : string)
    (r : Projects) : M TargetsLocals unit :=
  modify (updatedProjects_push (updated r)) ;;
  modify (failedProjects_push (failed r)) ;;
  modify processedTargets_incr ;;
  (if bool_decide (length (updated r) = 0) then ret tt
   else call (fun h => logUpdatedProjects w h orgId (updated r))
             (EvLogUpdatedProjects orgId (updated r))) ;;
  (if bool_decide (length (failed r) = 0) then ret tt
   else call (fun h => logFailedToUpdateProjects w h orgId (failed r))
             (EvLogFailedToUpdateProjects orgId (failed r))).

(** The body of the [try] block of the mapper. *)
Definition updateTargets_try (w : World) (orgId : string) (dry : bool)
    (host : option string) (t : SnykTarget) : M TargetsLocals unit :=
  r <- syncProjectsForTarget w orgId t dry host ;;
  updateTargets_after_sync w orgId r.

(** The [catch (e)] block of the mapper ([debug] output is not observed). *)
Definition updateTargets_catch (w : World) (orgId : string)
    (loggingPath : string) (t : SnykTarget) (e : JsThrown)
    : M TargetsLocals unit :=
  errorMessage <- message_of e ;;
  emit (EvConsoleWarn
          (Some ("Failed to sync target " +:+ displayName (attributes t)
                 +:+ ". ERROR: " +:+ template errorMessage))) ;;
  call (fun h => logFailedSync w h orgId t errorMessage loggingPath)
       (EvLogFailedSync orgId t errorMessage loggingPath).

Definition updateTargets_mapper (w : World) (orgId : string) (dry : bool)
    (host : option string) (loggingPath : string) (t : SnykTarget)
    : M TargetsLocals unit :=
  try_catch (updateTargets_try w orgId dry host t)
            (updateTargets_catch w orgId loggingPath t).

Definition updateTargets {L} (w : World) (orgId : string)
    (targets : list SnykTarget) (dry : bool) (host : option string)
    : M L SyncResult :=
  invoke {| var_processedTargets := 0;
            var_updatedProjects := [];
            var_failedProjects := [] |}
    (loggingPath <- call (getLoggingPath w) EvGetLoggingPath ;;
     pMap (updateTargets_mapper w orgId dry host loggingPath) targets ;;
     l <- get ;;
     ret {| processedTargets := var_processedTargets l;
            meta := {| projects :=
                         {| updated := var_updatedProjects l;
                            failed := var_failedProjects l |} |} |}).

(** ** [updateOrgTargets] *)

Definition allowedSources (sources : list string) : list string :=
  filter (fun source => source ∈ SupportedIntegrationTypesUpdateProject_values)
         sources.

Definition nothing_to_sync_message : string :=
  "Nothing to sync, stopping. Sync command currently only supports the following sources: "
    +:+ String.concat "," SupportedIntegrationTypesUpdateProject_values.

Definition org_not_found_message (publicOrgId : string) : string :=
  "Org " +:+ publicOrgId
    +:+ " was not found or you may not have the correct permissions to access the org".

Definition custom_branch_message (publicOrgId : string) : string :=
  "Detected custom branches feature. Skipping syncing organization "
    +:+ publicOrgId
    +:+ " because it is not possible to determine which should be the default branch.".

(** [res.processedTargets += ...; res.meta.projects.updated.push(...);
    res.meta.projects.failed.push(...)] *)
Definition res_merge (response : SyncResult) (res : SyncResult) : SyncResult :=
  {| processedTargets := processedTargets res + processedTargets response;
     meta :=
       {| projects :=
            {| updated := updated (projects (meta res))
                            ++ updated (projects (meta response));
               failed := failed (projects (meta res))
                           ++ failed (projects (meta response)) |} |} |}.

(** What the mapper awaits for one source before it touches [res]. *)
Definition updateOrgTargets_source {L} (w : World) (publicOrgId : string)
    (dry : bool) (host : option string) (source : string) : M L SyncResult :=
  apply_configured w (isSourceConfigured w source) ;;
  let filters :=
    {| limit := 100; filter_origin := source; excludeEmpty := true |} in
  targets <- call (fun h => listTargets w h publicOrgId filters)
                  (EvListTargets publicOrgId filters) ;;
  updateTargets w publicOrgId targets dry host.

Definition updateOrgTargets_mapper (w : World) (publicOrgId : string)
    (dry : bool) (host : option string) (source : string)
    : M SyncResult unit :=
  response <- updateOrgTargets_source w publicOrgId dry host source ;;
  modify (res_merge response).

(** [path.resolve(getLoggingPath(), name)] under its [try]/[catch]. *)
Definition resolve_log_file {L} (w : World) (name : string) : M L string :=
  try_catch
    (dir <- call (getLoggingPath w) EvGetLoggingPath ;;
     ret (path_resolve w dir name))
    (fun e =>
       m <- message_of e ;;
       emit (EvConsoleWarn m) ;;
       ret name).

Definition res_initial : SyncResult :=
  {| processedTargets := 0;
     meta := {| projects := {| updated := []; failed := [] |} |} |}.

Definition updateOrgTargets {L} (w : World) (publicOrgId : string)
    (sources : list string) (dry : bool) (host : option string)
    : M L OrgSyncResult :=
  invoke res_initial
    (let allowed := allowedSources sources in
     if bool_decide (length allowed = 0)
     then throw (new_Error nothing_to_sync_message)
     else
       hasCustomBranchFlag <-
         try_catch
           (call (fun h => getFeatureFlag w h "customBranch" publicOrgId)
                 (EvGetFeatureFlag "customBranch" publicOrgId))
           (fun _ => throw (new_Error (org_not_found_message publicOrgId))) ;;
       if (hasCustomBranchFlag : bool)
       then throw (new_Error (custom_branch_message publicOrgId))
       else
         pMap (updateOrgTargets_mapper w publicOrgId dry host) allowed ;;
         logFile <- resolve_log_file w UPDATED_PROJECTS_LOG_NAME ;;
         failedLogFile <- resolve_log_file w FAILED_UPDATE_PROJECTS_LOG_NAME ;;
         res <- get ;;
         ret {| fileName := logFile;
                failedFileName := failedLogFile;
                org_processedTargets := processedTargets res;
                org_meta := meta res |}).

(** A run from a given past: its outcome and the calls it made. *)
Definition run {A} (m : M unit A) (h : list Event)
    : outcome A * list Event :=
  (m h tt).1.


(** ** Observations on runs *)

(** Every call the computation makes, from any past, satisfies [P]. *)
Definition emits {L A} (P : Event -> Prop) (m : M L A) : Prop :=
  forall h l, Forall P (events_of (m h l)).

(** Where a call comes from. *)
Definition from_flag_reader (ev : Event) : Prop :=
  match ev with
  | EvGetFeatureFlag _ _ _ => True
  | _ => False
  end.

Definition from_project_updater (ev : Event) : Prop :=
  match ev with
  | EvUpdateProject _ _ _ _ => True
  | _ => False
  end.

(** A default-branch fetch that returned. *)
Definition fetched (ev : Event) : Prop :=
  match ev with
  | EvGetDefaultBranch _ _ (Returned _) => True
  | _ => False
  end.

(** The projects [ps] of target [t] were listed and its default branch [b]
    was fetched next: the target was visited in the run. *)
Definition visited (orgId : string) (host : option string)
    (evs : list Event) (t : SnykTarget) (ps : list SnykProject) (b : string)
    : Prop :=
  exists before after,
    evs = before
            ++ EvListProjects orgId (id t) (Returned ps)
            :: EvGetDefaultBranch t host (Returned b)
            :: after.

(** The record a dry run reports for project [p] of target [t]. *)
Definition dry_update (t : SnykTarget) (p : SnykProject) (b : string)
    : ProjectUpdate :=
  {| projectPublicId := project_id p;
     from := branch p;
     to := b;
     update_type := BRANCH;
     dryRun := true;
     target := Some t |}.

(** The first call of [evs] is a default-branch fetch that returned. *)
Definition fetch_first (evs : list Event) : Prop :=
  match evs with
  | ev :: _ => fetched ev
  | [] => False
  end.

(** While the calls [evs] were made the sequence of updates grew from [old]
    to [new], and every drifted project of every target visited in [evs] is
    reported in [new]. *)
Definition accounted (orgId : string) (host : option string)
    (evs : list Event) (old new : list ProjectUpdate) : Prop :=
  ~ fetch_first evs /\
  (exists more, new = old ++ more) /\
  forall t ps b, visited orgId host evs t ps b ->
    forall p, p ∈ ps -> branch p <> Some b -> dry_update t p b ∈ new.

(** The records a dry run produces for a listing, before the target is
    attached. *)
Definition dry_records (b : string) (ps : list SnykProject)
    : list ProjectUpdate :=
  map (fun p =>
         {| projectPublicId := project_id p;
            from := branch p;
            to := b;
            update_type := BRANCH;
            dryRun := true;
            target := None |})
      (filter (fun p => branch p <> Some b) ps).

(** ** The per-source results *)

Fixpoint mapM {L X Y} (f : X -> M L Y) (xs : list X) : M L (list Y) :=
  match xs with
  | [] => ret []
  | x :: rest =>
      y <- f x ;;
      ys <- mapM f rest ;;
      ret (y :: ys)
  end.

(** What the units of work of the allowed sources resolve to, source after
    source, without any aggregate. *)
Definition source_responses {L} (w : World) (publicOrgId : string)
    (dry : bool) (host : option string) (allowed : list string)
    : M L (list SyncResult) :=
  mapM (updateOrgTargets_source w publicOrgId dry host) allowed.

(** How many records of a sequence are about project [pid]. *)
Definition updates_of (pid : string) (us : list ProjectUpdate) : nat :=
  length (filter (fun u => projectPublicId u = pid) us).

Definition failures_of (pid : string) (fs : list ProjectUpdateFailure) : nat :=
  length (filter (fun f => projectPublicId (failure f) = pid) fs).

(** ** Scenarios

    Worlds whose collaborators answer the same way at every call, as the
    mocks of the unit tests do. *)
Module Scenario.

Definition a_target (name ident : string) : SnykTarget :=
  {| attributes :=
       {| displayName := name; isPrivate := true; origin := "github";
          remoteUrl := None |};
     id := ident;
     relationships_org_id := None;
     type := "target" |}.

Definition a_project (name ident kind recorded : string) : SnykProject :=
  {| project_name := name;
     project_id := ident;
     project_created := "date";
     project_origin := "github";
     project_type := kind;
     branch := Some recorded |}.

Definition world (flag : outcome bool) (targets : list SnykTarget)
    (loggingPath : outcome string)
    (projectsOf : string -> outcome (list SnykProject))
    (defaultBranch : outcome string)
    (update : string -> outcome SnykProject)
    (logUpdated : outcome unit) (logFailed : outcome unit) : World :=
  {| getFeatureFlag := fun _ _ _ => flag;
     isGithubConfigured := fun _ => Returned tt;
     listTargets := fun _ _ _ => Returned targets;
     getLoggingPath := fun _ => loggingPath;
     listProjects := fun _ _ targetId => projectsOf targetId;
     getGithubReposDefaultBranch := fun _ _ _ => defaultBranch;
     updateProject := fun _ _ projectId _ => update projectId;
     logUpdatedProjects := fun _ _ _ => logUpdated;
     logFailedToUpdateProjects := fun _ _ _ => Returned tt;
     logFailedSync := fun _ _ _ _ _ => logFailed;
     (* a stand-in that joins the directory and the name *)
     path_resolve := fun dir name => dir +:+ "/" +:+ name;
     Object_prototype_call := fun _ => Returned tt |}.

Definition bar : SnykTarget := a_target "snyk/bar" "target-bar".
Definition foo : SnykTarget := a_target "snyk/foo" "target-foo".
Definition monorepo : SnykTarget := a_target "snyk/monorepo" "target-mono".

Definition bar_project : SnykProject :=
  a_project "snyk/bar" "project-bar" "npm" "main".
Definition foo_project : SnykProject :=
  a_project "snyk/foo" "project-foo" "yarn" "develop".
Definition gradle_project : SnykProject :=
  a_project "snyk/monorepo:build.gradle"
            "3626066d-21a7-424f-b6fc-dc0d222d8e4a" "npm" "master".
Definition maven_project : SnykProject :=
  a_project "snyk/monorepo(main):package.json"
            "f57afea5-8fed-41d8-a8fd-d374c0944b07" "maven" "master".

Definition projects_by_target (targetId : string)
    : outcome (list SnykProject) :=
  if String.eqb targetId "target-bar" then Returned [bar_project]
  else if String.eqb targetId "target-foo" then Returned [foo_project]
  else Returned [gradle_project; maven_project].

Definition updated_project (projectId : string) : outcome SnykProject :=
  Returned (a_project "" projectId "" "").

(** "Successfully updated several targets (dryRun mode)" *)
Definition two_targets : World :=
  world (Returned false) [bar; foo] (Returned ".") projects_by_target
        (Returned "new-branch") updated_project (Returned tt) (Returned tt).

(** "updates several projects from the same target 1 failed 1 success" *)
Definition one_update_rejected : World :=
  world (Returned false) [monorepo] (Returned ".") projects_by_target
        (Returned "develop")
        (fun projectId =>
           if String.eqb projectId "f57afea5-8fed-41d8-a8fd-d374c0944b07"
           then Thrown (ThrownValue (Some "Error"))
           else updated_project projectId)
        (Returned tt) (Returned tt).

(** "throws if the organization uses the customBranch FF" *)
Definition custom_branch_org : World :=
  world (Returned true) [bar; foo] (Returned ".") projects_by_target
        (Returned "new-branch") updated_project (Returned tt) (Returned tt).

(** The organisation cannot be read. *)
Definition unknown_org : World :=
  world (Thrown (new_Error "Not Found")) [bar; foo] (Returned ".")
        projects_by_target (Returned "new-branch") updated_project
        (Returned tt) (Returned tt).

(** "skips target if listingProjects has API error": the lister rejects
    with a string. *)
Definition listing_rejected : World :=
  world (Returned false) [bar] (Returned ".")
        (fun _ => Thrown (ThrownValue None))
        (Returned "new-branch") updated_project (Returned tt) (Returned tt).

(** The log of updated projects cannot be written. *)
Definition updated_log_fails : World :=
  world (Returned false) [bar] (Returned ".") projects_by_target
        (Returned "new-branch") updated_project
        (Thrown (new_Error "EACCES: permission denied")) (Returned tt).

(** The project lister rejects and the log of failed syncs cannot be
    written either. *)
Definition failed_sync_log_fails : World :=
  world (Returned false) [bar; foo] (Returned ".")
        (fun _ => Thrown (ThrownValue None))
        (Returned "new-branch") updated_project (Returned tt)
        (Thrown (new_Error "EACCES: permission denied")).

(** The project lister rejects with [undefined]. *)
Definition rejects_with_undefined : World :=
  world (Returned false) [bar; foo] (Returned ".")
        (fun _ => Thrown ThrownNullish)
        (Returned "new-branch") updated_project (Returned tt) (Returned tt).

(** No logging directory is configured. *)
Definition no_logging_path : World :=
  world (Returned false) [] (Thrown (new_Error "Please set the SNYK_LOG_PATH environment variable"))
        projects_by_target (Returned "new-branch") updated_project
        (Returned tt) (Returned tt).

End Scenario.

(** ** The run of [updateOrgTargets] past its checks *)

(** What [updateOrgTargets] does once the feature flag has been read and
    found off: lines 106 to 151. *)
Definition after_the_checks (w : World) (publicOrgId : string) (dry : bool)
    (host : option string) (allowed : list string)
    : M SyncResult OrgSyncResult :=
  pMap (updateOrgTargets_mapper w publicOrgId dry host) allowed ;;
  logFile <- resolve_log_file w UPDATED_PROJECTS_LOG_NAME ;;
  failedLogFile <- resolve_log_file w FAILED_UPDATE_PROJECTS_LOG_NAME ;;
  res <- get ;;
  ret {| fileName := logFile;
         failedFileName := failedLogFile;
         org_processedTargets := processedTargets res;
         org_meta := meta res |}.

(** ** Further observations on runs *)

Definition is_failed_sync_log (ev : Event) : bool :=
  match ev with
  | EvLogFailedSync _ _ _ _ _ => true
  | _ => false
  end.

(** How many calls of [evs] are calls to [logFailedSync]. *)
Definition failed_sync_logs (evs : list Event) : nat :=
  length (List.filter is_failed_sync_log evs).

(** A call to a project logger hands it at least one record. *)
Definition logs_something (ev : Event) : Prop :=
  match ev with
  | EvLogUpdatedProjects _ l _ => l <> []
  | EvLogFailedToUpdateProjects _ l _ => l <> []
  | _ => True
  end.

(** A call to the target lister is for the organisation [publicOrgId],
    with the filters of [updateOrgTargets] and a supported origin. *)
Definition lists_supported (publicOrgId : string) (ev : Event) : Prop :=
  match ev with
  | EvListTargets o f _ =>
      o = publicOrgId /\
      f = {| limit := 100; filter_origin := GITHUB; excludeEmpty := true |}
  | _ => True
  end.

(** A call to [logFailedSync] is for the organisation [orgId], one of the
    [targets], and the logging path [loggingPath]. *)
Definition failed_sync_of (orgId loggingPath : string)
    (targets : list SnykTarget) (ev : Event) : Prop :=
  match ev with
  | EvLogFailedSync o t _ lp _ => o = orgId /\ lp = loggingPath /\ t ∈ targets
  | _ => True
  end.

(** The calls that neither the target lister nor a logger nor the flag
    reader receives. *)
Definition plain_call (ev : Event) : Prop :=
  match ev with
  | EvGetFeatureFlag _ _ _ => False
  | EvListTargets _ _ _ => False
  | EvLogUpdatedProjects _ _ _ => False
  | EvLogFailedToUpdateProjects _ _ _ => False
  | _ => True
  end.

(** The calls [evs] are one guarded resolution of the log file [name], and
    [file] is what it yields: the path resolved against the logging
    directory, or, after a warning with the message of the error, the bare
    name. *)
Definition resolved_as (w : World) (name : string) (evs : list Event)
    (file : string) : Prop :=
  (exists dir,
     evs = [EvGetLoggingPath (Returned dir)] /\
     file = path_resolve w dir name) \/
  (exists m,
     evs = [EvGetLoggingPath (Thrown (ThrownValue m)); EvConsoleWarn m] /\
     file = name).

(** How many targets the target lister returned in the calls [evs]. *)
Definition listed_targets (evs : list Event) : nat :=
  sum_list
    (map (fun ev =>
            match ev with
            | EvListTargets _ _ (Returned targets) => length targets
            | _ => 0
            end)
         evs).

(** Worlds in which a source cannot be worked on. *)
Module Outage.

(** The GitHub token is missing. *)
Definition github_not_configured : World :=
  {| getFeatureFlag := getFeatureFlag Scenario.two_targets;
     isGithubConfigured :=
       fun _ => Thrown (new_Error "Please set the GITHUB_TOKEN e.g. export GITHUB_TOKEN='mypersonalaccesstoken123'");
     listTargets := listTargets Scenario.two_targets;
     getLoggingPath := getLoggingPath Scenario.two_targets;
     listProjects := listProjects Scenario.two_targets;
     getGithubReposDefaultBranch :=
       getGithubReposDefaultBranch Scenario.two_targets;
     updateProject := updateProject Scenario.two_targets;
     logUpdatedProjects := logUpdatedProjects Scenario.two_targets;
     logFailedToUpdateProjects :=
       logFailedToUpdateProjects Scenario.two_targets;
     logFailedSync := logFailedSync Scenario.two_targets;
     path_resolve := path_resolve Scenario.two_targets;
     Object_prototype_call := Object_prototype_call Scenario.two_targets |}.

(** The targets of the organisation cannot be listed. *)
Definition target_listing_fails : World :=
  {| getFeatureFlag := getFeatureFlag Scenario.two_targets;
     isGithubConfigured := isGithubConfigured Scenario.two_targets;
     listTargets :=
       fun _ _ _ => Thrown (new_Error "Expected a 200 response, instead received: 401");
     getLoggingPath := getLoggingPath Scenario.two_targets;
     listProjects := listProjects Scenario.two_targets;
     getGithubReposDefaultBranch :=
       getGithubReposDefaultBranch Scenario.two_targets;
     updateProject := updateProject Scenario.two_targets;
     logUpdatedProjects := logUpdatedProjects Scenario.two_targets;
     logFailedToUpdateProjects :=
       logFailedToUpdateProjects Scenario.two_targets;
     logFailedSync := logFailedSync Scenario.two_targets;
     path_resolve := path_resolve Scenario.two_targets;
     Object_prototype_call := Object_prototype_call Scenario.two_targets |}.

End Outage.

(** ** Tactics for the calls of a computation *)

Ltac emits_event := simpl; intros; tauto.
Ltac other_event H := intros; apply H; simpl; tauto.

(** ** Laws of computations *)

Section Laws.
Context {L : Type}.

Lemma bind_returned {A B} (m : M L A) (k : A -> M L B) h l a evs l1 :
  m h l = (Returned a, evs, l1) ->
  bind m k h l =
    (result_of (k a (h ++ evs) l1),
     evs ++ events_of (k a (h ++ evs) l1),
     locals_of (k a (h ++ evs) l1)).
Proof.
  intros Hm. unfold bind, result_of, events_of, locals_of. rewrite Hm.
  by destruct (k a (h ++ evs) l1) as [[r evs2] l2].
Qed.

Lemma bind_thrown {A B} (m : M L A) (k : A -> M L B) h l e evs l1 :
  m h l = (Thrown e, evs, l1) ->
  bind m k h l = (Thrown e, evs, l1).
Proof. intros Hm. unfold bind. by rewrite Hm. Qed.

(** A sequence that returns went through both of its parts. *)
Lemma bind_returned_inv {A B} (m : M L A) (k : A -> M L B) h l b evs l2 :
  bind m k h l = (Returned b, evs, l2) ->
  exists a e1 l1 e2,
    m h l = (Returned a, e1, l1) /\
    k a (h ++ e1) l1 = (Returned b, e2, l2) /\
    evs = e1 ++ e2.
Proof.
  unfold bind. destruct (m h l) as [[[a|e] e1] l1]; [|done].
  destruct (k a (h ++ e1) l1) as [[r e2] l2'] eqn:Hk.
  intros [= -> <- ->]. by exists a, e1, l1, e2.
Qed.

Lemma try_catch_returned {A} (m : M L A) handler h l a evs l1 :
  m h l = (Returned a, evs, l1) ->
  try_catch m handler h l = (Returned a, evs, l1).
Proof. intros Hm. unfold try_catch. by rewrite Hm. Qed.

Lemma try_catch_thrown {A} (m : M L A) handler h l e evs l1 :
  m h l = (Thrown e, evs, l1) ->
  try_catch m handler h l =
    (result_of (handler e (h ++ evs) l1),
     evs ++ events_of (handler e (h ++ evs) l1),
     locals_of (handler e (h ++ evs) l1)).
Proof.
  intros Hm. unfold try_catch, result_of, events_of, locals_of. rewrite Hm.
  by destruct (handler e (h ++ evs) l1) as [[r evs2] l2].
Qed.

Lemma pMap_cons {X} (mapper : X -> M L unit) x rest :
  pMap mapper (x :: rest) = (mapper x ;; pMap mapper rest).
Proof. reflexivity. Qed.

(** A mapper that settles without a throw lets [pMap] go on with the
    remaining items from the state it left. *)
Lemma pMap_step {X} (mapper : X -> M L unit) x rest h l evs l1 :
  mapper x h l = (Returned tt, evs, l1) ->
  pMap mapper (x :: rest) h l =
    (result_of (pMap mapper rest (h ++ evs) l1),
     evs ++ events_of (pMap mapper rest (h ++ evs) l1),
     locals_of (pMap mapper rest (h ++ evs) l1)).
Proof.
  intros Hm. rewrite pMap_cons.
  exact (bind_returned (mapper x) (fun _ => pMap mapper rest) h l tt evs l1 Hm).
Qed.

(** Items that settled without a throw let [pMap] go on with the items
    after them from the state they left. *)
Lemma pMap_app_returned {X} (mapper : X -> M L unit) xs ys h l evs l1 :
  pMap mapper xs h l = (Returned tt, evs, l1) ->
  pMap mapper (xs ++ ys) h l =
    (result_of (pMap mapper ys (h ++ evs) l1),
     evs ++ events_of (pMap mapper ys (h ++ evs) l1),
     locals_of (pMap mapper ys (h ++ evs) l1)).
Proof.
  revert h l evs l1. induction xs as [|x xs IH]; intros h l evs l1.
  - intros [= <- <-]. simpl. rewrite app_nil_r.
    by destruct (pMap mapper ys h l) as [[r e] l2].
  - rewrite pMap_cons.
    intros (() & e1 & l2 & e2 & Hx & Hxs & ->)%bind_returned_inv.
    simpl. erewrite bind_returned by exact Hx.
    rewrite (IH _ _ _ _ Hxs).
    unfold result_of, events_of, locals_of. simpl.
    by rewrite <- !app_assoc.
Qed.

(** A rejection that escapes a mapper rejects [pMap]: the remaining items
    are not started. *)
Lemma pMap_stop {X} (mapper : X -> M L unit) x rest h l e evs l1 :
  mapper x h l = (Thrown e, evs, l1) ->
  pMap mapper (x :: rest) h l = (Thrown e, evs, l1).
Proof. intros Hm. rewrite pMap_cons. by apply bind_thrown. Qed.

(** *** Calls a computation can make *)

Lemma emits_ret {A} P (a : A) : emits P (@ret L A a).
Proof. intros h l. constructor. Qed.

Lemma emits_throw {A} P e : emits P (@throw L A e).
Proof. intros h l. constructor. Qed.

Lemma emits_get P : emits P (@get L).
Proof. intros h l. constructor. Qed.

Lemma emits_modify P f : emits P (@modify L f).
Proof. intros h l. constructor. Qed.

Lemma emits_emit (P : Event -> Prop) ev : P ev -> emits P (@emit L ev).
Proof. intros Hev h l. by repeat constructor. Qed.

Lemma emits_call {A} (P : Event -> Prop) oracle (record : outcome A -> Event) :
  (forall r, P (record r)) -> emits P (@call L A oracle record).
Proof. intros Hev h l. by repeat constructor. Qed.

Lemma emits_message_of P e : emits P (@message_of L e).
Proof. destruct e; [apply emits_throw | apply emits_ret]. Qed.

Lemma emits_bind {A B} P (m : M L A) (k : A -> M L B) :
  emits P m -> (forall a, emits P (k a)) -> emits P (bind m k).
Proof.
  intros Hm Hk h l. specialize (Hm h l). unfold events_of, bind in *.
  destruct (m h l) as [[[a|e] evs] l1]; simpl in *; [|done].
  specialize (Hk a (h ++ evs) l1). unfold events_of in Hk.
  destruct (k a (h ++ evs) l1) as [[r evs2] l2]; simpl in *.
  by apply Forall_app.
Qed.

Lemma emits_try_catch {A} P (m : M L A) handler :
  emits P m -> (forall e, emits P (handler e)) ->
  emits P (try_catch m handler).
Proof.
  intros Hm Hk h l. specialize (Hm h l). unfold events_of, try_catch in *.
  destruct (m h l) as [[[a|e] evs] l1]; simpl in *; [done|].
  specialize (Hk e (h ++ evs) l1). unfold events_of in Hk.
  destruct (handler e (h ++ evs) l1) as [[r evs2] l2]; simpl in *.
  by apply Forall_app.
Qed.

Lemma emits_pMap {X} P (mapper : X -> M L unit) items :
  (forall x, emits P (mapper x)) -> emits P (pMap mapper items).
Proof.
  intros Hm. induction items as [|x rest IH]; simpl.
  - apply emits_ret.
  - apply emits_bind; [apply Hm | intros _; apply IH].
Qed.

Lemma emits_invoke {L' A} P (init : L') (m : M L' A) :
  emits P m -> emits P (@invoke L L' A init m).
Proof.
  intros Hm h l. specialize (Hm h init). unfold events_of, invoke in *.
  by destruct (m h init) as [[r evs] l1].
Qed.

End Laws.

Ltac emits_step known :=
  first
    [ known | apply emits_ret | apply emits_throw | apply emits_get
    | apply emits_modify | apply emits_message_of
    | apply emits_bind | apply emits_try_catch | apply emits_pMap
    | apply emits_invoke
    | apply emits_emit; emits_event
    | apply emits_call; emits_event ].

Ltac emits_auto known := repeat (intros; emits_step known).

Section CallsOfTheEngine.
Variable w : World.
Variable orgId : string.
Variable host : option string.

(** In a dry run nothing below the target level calls the project updater. *)
Lemma BranchDecisionMaker_dry_emits {L} project defaultBranch :
  emits (fun ev => ~ from_project_updater ev)
        (@BranchDecisionMaker L w orgId project defaultBranch true).
Proof.
  unfold BranchDecisionMaker. case_bool_decide; emits_auto fail.
Qed.

Lemma syncProjectsForTarget_dry_emits {L} t :
  emits (fun ev => ~ from_project_updater ev)
        (@syncProjectsForTarget L w orgId t true host).
Proof.
  unfold syncProjectsForTarget, syncProject.
  emits_auto ltac:(apply BranchDecisionMaker_dry_emits).
  destruct a1; emits_auto fail.
Qed.

(** Nothing at or below the target level reads a feature flag. *)
Lemma syncProjectsForTarget_no_flag {L} dry t :
  emits (fun ev => ~ from_flag_reader ev)
        (@syncProjectsForTarget L w orgId t dry host).
Proof.
  unfold syncProjectsForTarget, syncProject, BranchDecisionMaker.
  emits_auto fail.
  - case_bool_decide; [|destruct dry]; emits_auto fail.
  - destruct a1; emits_auto fail.
Qed.

(** The rest of the engine makes no call to the flag reader or to the
    project updater of its own: a property of every other call holds of all
    its calls as soon as it holds of the calls of [syncProjectsForTarget]. *)
Section AboveTheTarget.
Variable P : Event -> Prop.
Hypothesis P_other :
  forall ev, ~ from_flag_reader ev -> ~ from_project_updater ev -> P ev.
Variable dry : bool.
Hypothesis P_sync :
  forall t, emits P (@syncProjectsForTarget TargetsLocals w orgId t dry host).

Local Ltac above_step known :=
  first
    [ known | apply emits_ret | apply emits_throw | apply emits_get
    | apply emits_modify | apply emits_message_of
    | apply emits_bind | apply emits_try_catch | apply emits_pMap
    | apply emits_invoke
    | apply emits_emit; other_event P_other
    | apply emits_call; other_event P_other ].
Local Ltac above_auto known := repeat (intros; above_step known).

Lemma updateTargets_mapper_emits loggingPath t :
  emits P (updateTargets_mapper w orgId dry host loggingPath t).
Proof.
  unfold updateTargets_mapper, updateTargets_try, updateTargets_after_sync,
    updateTargets_catch.
  above_auto ltac:(apply P_sync); case_bool_decide; above_auto fail.
Qed.

Lemma updateTargets_emits {L} targets :
  emits P (@updateTargets L w orgId targets dry host).
Proof.
  unfold updateTargets.
  above_auto ltac:(apply updateTargets_mapper_emits).
Qed.

Lemma apply_configured_emits {L} source :
  emits P (@apply_configured L w (isSourceConfigured w source)).
Proof.
  unfold apply_configured.
  destruct (isSourceConfigured w source); [above_auto fail| |above_auto fail].
  intros h l. constructor.
Qed.

Lemma updateOrgTargets_mapper_emits source :
  emits P (updateOrgTargets_mapper w orgId dry host source).
Proof.
  unfold updateOrgTargets_mapper, updateOrgTargets_source.
  above_auto
    ltac:(first [apply apply_configured_emits | apply updateTargets_emits]).
Qed.

Lemma resolve_log_file_emits {L} name :
  emits P (@resolve_log_file L w name).
Proof. unfold resolve_log_file. above_auto fail. Qed.

Lemma after_the_checks_emits sources :
  emits P (after_the_checks w orgId dry host sources).
Proof.
  unfold after_the_checks.
  above_auto
    ltac:(first [ apply updateOrgTargets_mapper_emits
                | apply resolve_log_file_emits ]).
Qed.

End AboveTheTarget.
End CallsOfTheEngine.

Lemma apply_configured_locals {L} w f h (l : L) :
  locals_of (apply_configured w f h l) = l.
Proof. by destruct f. Qed.

(** ** The checks at the entry of [updateOrgTargets] *)

Lemma allowedSources_unsupported sources :
  Forall (fun s => s ∉ SupportedIntegrationTypesUpdateProject_values) sources ->
  allowedSources sources = [].
Proof.
  unfold allowedSources. induction 1 as [|s rest Hs _ IH]; [done|].
  by rewrite filter_cons_False.
Qed.

Lemma allowedSources_supported sources source :
  source ∈ allowedSources sources ->
  source ∈ SupportedIntegrationTypesUpdateProject_values.
Proof. unfold allowedSources. rewrite list_elem_of_filter. tauto. Qed.

(** The ways the checks at the entry can end, and the run that follows
    them. *)
Lemma updateOrgTargets_checks {L} w publicOrgId sources dry host h (l : L) :
  updateOrgTargets w publicOrgId sources dry host h l =
    if bool_decide (length (allowedSources sources) = 0)
    then (Thrown (new_Error nothing_to_sync_message), [], l)
    else
      let query := EvGetFeatureFlag "customBranch" publicOrgId in
      match getFeatureFlag w h "customBranch" publicOrgId with
      | Thrown e =>
          (Thrown (new_Error (org_not_found_message publicOrgId)),
           [query (Thrown e)], l)
      | Returned true =>
          (Thrown (new_Error (custom_branch_message publicOrgId)),
           [query (Returned true)], l)
      | Returned false =>
          let r :=
            after_the_checks w publicOrgId dry host (allowedSources sources)
              (h ++ [query (Returned false)]) res_initial in
          (result_of r, query (Returned false) :: events_of r, l)
      end.
Proof.
  unfold updateOrgTargets, invoke. case_bool_decide; [done|].
  fold (after_the_checks w publicOrgId dry host (allowedSources sources)).
  unfold bind at 1, try_catch, call, throw. simpl.
  destruct (getFeatureFlag w h "customBranch" publicOrgId) as [[|]|e];
    simpl; try done.
  unfold result_of, events_of.
  by destruct (after_the_checks _ _ _ _ _ _ _) as [[r evs] l1].
Qed.

(** After the checks no further feature flag is read. *)
Lemma after_the_checks_no_flag w publicOrgId dry host allowed :
  emits (fun ev => ~ from_flag_reader ev)
        (after_the_checks w publicOrgId dry host allowed).
Proof.
  apply after_the_checks_emits; [tauto|].
  intros t. apply syncProjectsForTarget_no_flag.
Qed.

(** C3. When the requested sources contain no supported source (the empty
    list included), [updateOrgTargets] rejects with the message that
    enumerates the supported sources, and it has called no collaborator:
    neither the feature-flag reader nor the target lister nor any other. *)
Theorem updateOrgTargets_rejects_unsupported_sources
    w publicOrgId sources dry host h :
  Forall (fun s => s ∉ SupportedIntegrationTypesUpdateProject_values) sources ->
  run (updateOrgTargets w publicOrgId sources dry host) h =
    (Thrown (new_Error
       "Nothing to sync, stopping. Sync command currently only supports the following sources: github"),
     []).
Proof.
  intros Hs. unfold run. rewrite updateOrgTargets_checks.
  by rewrite (allowedSources_unsupported _ Hs).
Qed.

Lemma updateOrgTargets_rejects_unsupported_sources_witness :
  Forall (fun s => s ∉ SupportedIntegrationTypesUpdateProject_values)
         ["unsupported"] /\
  run (updateOrgTargets Scenario.two_targets "xxx" ["unsupported"] false None)
      [] =
    (Thrown (new_Error
       "Nothing to sync, stopping. Sync command currently only supports the following sources: github"),
     []).
Proof.
  assert (Forall (fun s => s ∉ SupportedIntegrationTypesUpdateProject_values)
                 ["unsupported"]) as Hs.
  { repeat constructor. apply (bool_decide_unpack _). reflexivity. }
  split; [exact Hs|].
  exact (updateOrgTargets_rejects_unsupported_sources
           Scenario.two_targets "xxx" ["unsupported"] false None [] Hs).
Defined.

(** C2. When the query of the [customBranch] feature flag returns [true],
    [updateOrgTargets] rejects with the custom-branch message that names the
    organisation, and the flag query is the only call of the run: the
    target lister is not invoked and no work is done for any target. *)
Theorem updateOrgTargets_rejects_custom_branch_org
    w publicOrgId sources dry host h :
  EvGetFeatureFlag "customBranch" publicOrgId (Returned true)
    ∈ (run (updateOrgTargets w publicOrgId sources dry host) h).2 ->
  run (updateOrgTargets w publicOrgId sources dry host) h =
    (Thrown (new_Error
       ("Detected custom branches feature. Skipping syncing organization "
        +:+ publicOrgId
        +:+ " because it is not possible to determine which should be the default branch.")),
     [EvGetFeatureFlag "customBranch" publicOrgId (Returned true)]).
Proof.
  unfold run. rewrite updateOrgTargets_checks.
  case_bool_decide; simpl; [by intros ?%elem_of_nil|].
  destruct (getFeatureFlag w h "customBranch" publicOrgId) as [[|]|e]; simpl.
  - done.
  - intros [?|Hin]%elem_of_cons; [done|]. exfalso.
    pose proof (after_the_checks_no_flag w publicOrgId dry host
                  (allowedSources sources)
                  (h ++ [EvGetFeatureFlag "customBranch" publicOrgId
                           (Returned false)])
                  res_initial) as Hno.
    rewrite Forall_forall in Hno. by apply (Hno _ Hin).
  - intros [?|?%elem_of_nil]%elem_of_cons; done.
Qed.

Lemma updateOrgTargets_rejects_custom_branch_org_witness :
  run (updateOrgTargets Scenario.custom_branch_org "xxx" [GITHUB] false None)
      [] =
    (Thrown (new_Error
       "Detected custom branches feature. Skipping syncing organization xxx because it is not possible to determine which should be the default branch."),
     [EvGetFeatureFlag "customBranch" "xxx" (Returned true)]).
Proof.
  apply (updateOrgTargets_rejects_custom_branch_org
           Scenario.custom_branch_org "xxx" [GITHUB] false None []).
  vm_compute. apply list_elem_of_here.
Defined.

(** C8. When the query of the [customBranch] feature flag itself throws,
    [updateOrgTargets] rejects with the message that names the organisation,
    and the flag query is the only call of the run: the rejection comes
    before the target lister or any work for a target. *)
Theorem updateOrgTargets_rejects_unreadable_org
    w publicOrgId sources dry host h e :
  EvGetFeatureFlag "customBranch" publicOrgId (Thrown e)
    ∈ (run (updateOrgTargets w publicOrgId sources dry host) h).2 ->
  run (updateOrgTargets w publicOrgId sources dry host) h =
    (Thrown (new_Error
       ("Org " +:+ publicOrgId
        +:+ " was not found or you may not have the correct permissions to access the org")),
     [EvGetFeatureFlag "customBranch" publicOrgId (Thrown e)]).
Proof.
  unfold run. rewrite updateOrgTargets_checks.
  case_bool_decide; simpl; [by intros ?%elem_of_nil|].
  destruct (getFeatureFlag w h "customBranch" publicOrgId) as [[|]|e']; simpl.
  - intros [?|?%elem_of_nil]%elem_of_cons; done.
  - intros [?|Hin]%elem_of_cons; [done|]. exfalso.
    pose proof (after_the_checks_no_flag w publicOrgId dry host
                  (allowedSources sources)
                  (h ++ [EvGetFeatureFlag "customBranch" publicOrgId
                           (Returned false)])
                  res_initial) as Hno.
    rewrite Forall_forall in Hno. by apply (Hno _ Hin).
  - intros [[= ->]|?%elem_of_nil]%elem_of_cons; done.
Qed.

Lemma updateOrgTargets_rejects_unreadable_org_witness :
  run (updateOrgTargets Scenario.unknown_org "xxx" [GITHUB] false None) [] =
    (Thrown (new_Error
       "Org xxx was not found or you may not have the correct permissions to access the org"),
     [EvGetFeatureFlag "customBranch" "xxx" (Thrown (new_Error "Not Found"))]).
Proof.
  apply (updateOrgTargets_rejects_unreadable_org
           Scenario.unknown_org "xxx" [GITHUB] false None []).
  vm_compute. apply list_elem_of_here.
Defined.

(** ** The unit tests, replayed on the embedding *)

(** "updates several projects from the same target 1 failed 1 success" *)
Example updateTargets_one_failed_one_success :
  (run (updateTargets Scenario.one_update_rejected
          "af137b96-6966-46c1-826b-2e79ac49bbxx" [Scenario.monorepo] false None)
       []).1 =
    Returned
      {| processedTargets := 1;
         meta :=
           {| projects :=
                {| updated :=
                     [{| projectPublicId :=
                           "3626066d-21a7-424f-b6fc-dc0d222d8e4a";
                         from := Some "master";
                         to := "develop";
                         update_type := BRANCH;
                         dryRun := false;
                         target := Some Scenario.monorepo |}];
                   failed :=
                     [{| failure :=
                           {| projectPublicId :=
                                "f57afea5-8fed-41d8-a8fd-d374c0944b07";
                              from := Some "master";
                              to := "develop";
                              update_type := BRANCH;
                              dryRun := false;
                              target := Some Scenario.monorepo |};
                         errorMessage :=
                           "Failed to update project f57afea5-8fed-41d8-a8fd-d374c0944b07 via Snyk API. ERROR: Error" |}]
                |} |} |}.
Proof. reflexivity. Qed.

(** "skips target if listingProjects has API error" *)
Example updateOrgTargets_skips_target_on_listing_error :
  (run (updateOrgTargets Scenario.listing_rejected "xxx" [GITHUB] false None)
       []).1 =
    Returned
      {| fileName := "./updated-projects.log";
         failedFileName := "./failed-to-update-projects.log";
         org_processedTargets := 0;
         org_meta := {| projects := {| updated := []; failed := [] |} |} |}.
Proof. vm_compute. reflexivity. Qed.

(** "Successfully updated several targets (dryRun mode)" *)
Example updateOrgTargets_dry_run_two_targets :
  (run (updateOrgTargets Scenario.two_targets "xxx" [GITHUB] true None) []).1 =
    Returned
      {| fileName := "./updated-projects.log";
         failedFileName := "./failed-to-update-projects.log";
         org_processedTargets := 2;
         org_meta :=
           {| projects :=
                {| updated :=
                     [dry_update Scenario.bar Scenario.bar_project "new-branch";
                      dry_update Scenario.foo Scenario.foo_project "new-branch"];
                   failed := [] |} |} |}.
Proof. vm_compute. reflexivity. Qed.

(** ** [isSourceConfigured] *)

Lemma isSourceConfigured_github w :
  isSourceConfigured w GITHUB = Own (isGithubConfigured w).
Proof. unfold isSourceConfigured, js_get. by rewrite lookup_singleton_eq. Qed.

Lemma isSourceConfigured_other w origin :
  origin <> GITHUB ->
  isSourceConfigured w origin =
    if bool_decide (origin ∈ Object_prototype_properties)
    then Inherited origin
    else Undefined.
Proof.
  intros Hne. unfold isSourceConfigured, js_get.
  by rewrite lookup_singleton_ne.
Qed.

(** C9, as the code has it.  For every source that survives the filter of
    [updateOrgTargets], [isSourceConfigured] returns the configuration check
    of GitHub, so that the immediate invocation calls that check and never
    [undefined].  For an origin outside the supported set it returns
    [undefined] unless the origin is the name of a member that the table
    inherits from [Object.prototype]; for such a name it returns the
    inherited member. *)
Theorem isSourceConfigured_on_origins w sources source origin :
  source ∈ allowedSources sources ->
  origin ∉ SupportedIntegrationTypesUpdateProject_values ->
  isSourceConfigured w source = Own (isGithubConfigured w) /\
  (forall L, @apply_configured L w (isSourceConfigured w source) =
             call (isGithubConfigured w) EvIsGithubConfigured) /\
  isSourceConfigured w origin =
    if bool_decide (origin ∈ Object_prototype_properties)
    then Inherited origin
    else Undefined.
Proof.
  intros Hs%allowedSources_supported Ho.
  apply list_elem_of_singleton in Hs as ->.
  rewrite isSourceConfigured_github. repeat split.
  apply isSourceConfigured_other. intros ->. apply Ho, list_elem_of_here.
Qed.

Lemma isSourceConfigured_on_origins_witness :
  isSourceConfigured Scenario.two_targets "github"
    = Own (isGithubConfigured Scenario.two_targets) /\
  isSourceConfigured Scenario.two_targets "gitlab" = Undefined.
Proof.
  assert ("github" ∈ allowedSources ["gitlab"; "github"]) as Hs.
  { apply (bool_decide_unpack _). reflexivity. }
  assert ("gitlab" ∉ SupportedIntegrationTypesUpdateProject_values) as Ho.
  { apply (bool_decide_unpack _). reflexivity. }
  destruct (isSourceConfigured_on_origins
              Scenario.two_targets ["gitlab"; "github"] "github" "gitlab"
              Hs Ho) as (Hown & _ & Hother).
  split; [exact Hown | exact Hother].
Defined.

(** C9, as stated, fails: ["toString"] is outside the supported set, and
    the table still yields a value for it, the member inherited from
    [Object.prototype]. *)
Lemma isSourceConfigured_toString_is_defined :
  ("toString" ∉ SupportedIntegrationTypesUpdateProject_values) /\
  isSourceConfigured Scenario.two_targets "toString" = Inherited "toString" /\
  isSourceConfigured Scenario.two_targets "toString" <> Undefined.
Proof.
  split; [apply (bool_decide_unpack _); reflexivity|].
  split; [reflexivity | discriminate].
Qed.

(** ** The logging path in [updateTargets] *)

(** The unguarded read of the logging path: when the resolver throws,
    [updateTargets] rejects before it looks at its targets. *)
Lemma updateTargets_needs_logging_path w orgId targets dry host h e :
  getLoggingPath w h = Thrown e ->
  run (updateTargets w orgId targets dry host) h =
    (Thrown e, [EvGetLoggingPath (Thrown e)]).
Proof.
  intros He. unfold run, updateTargets, invoke, bind, call. by rewrite He.
Qed.

(** With a logging path, an empty sequence of targets gives the empty
    aggregate, and the path resolver is the only collaborator called. *)
Lemma updateTargets_empty w orgId dry host h loggingPath :
  getLoggingPath w h = Returned loggingPath ->
  run (updateTargets w orgId [] dry host) h =
    (Returned {| processedTargets := 0;
                 meta := {| projects := {| updated := []; failed := [] |} |} |},
     [EvGetLoggingPath (Returned loggingPath)]).
Proof.
  intros He. unfold run, updateTargets, invoke, bind, call. by rewrite He.
Qed.

(** C10, at the failing input.  Without a configured logging directory
    [updateTargets], applied to no target at all, rejects with the error of
    the path resolver instead of returning the empty aggregate. *)
Theorem updateTargets_empty_rejects_without_logging_path :
  run (updateTargets Scenario.no_logging_path "xxx" [] false None) [] =
    (Thrown (new_Error "Please set the SNYK_LOG_PATH environment variable"),
     [EvGetLoggingPath
        (Thrown (new_Error
                   "Please set the SNYK_LOG_PATH environment variable"))]).
Proof. reflexivity. Qed.

(** The guarded read at the end of [updateOrgTargets] does fall back to the
    bare file name. *)
Lemma resolve_log_file_falls_back {L} w name h (l : L) m :
  getLoggingPath w h = Thrown (ThrownValue m) ->
  resolve_log_file w name h l =
    (Returned name,
     [EvGetLoggingPath (Thrown (ThrownValue m)); EvConsoleWarn m], l).
Proof.
  intros He. unfold resolve_log_file, try_catch, bind, call. by rewrite He.
Qed.

(** C6, at the failing input.  Without a configured logging directory
    [updateOrgTargets] rejects with the error of the path resolver, thrown
    by the unguarded read inside [updateTargets] for the first source: the
    fallback to the bare file names is never reached. *)
Theorem updateOrgTargets_rejects_without_logging_path :
  run (updateOrgTargets Scenario.no_logging_path "xxx" [GITHUB] false None)
      [] =
    (Thrown (new_Error "Please set the SNYK_LOG_PATH environment variable"),
     [EvGetFeatureFlag "customBranch" "xxx" (Returned false);
      EvIsGithubConfigured (Returned tt);
      EvListTargets "xxx"
        {| limit := 100; filter_origin := "github"; excludeEmpty := true |}
        (Returned []);
      EvGetLoggingPath
        (Thrown (new_Error
                   "Please set the SNYK_LOG_PATH environment variable"))]).
Proof. vm_compute. reflexivity. Qed.

(** With a resolver that throws whenever it is asked, the unit of work of
    every source throws, at the latest in [updateTargets]. *)
Lemma updateOrgTargets_source_throws_without_logging_path
    {L} w publicOrgId dry host source h (l : L) :
  (forall h', exists e, getLoggingPath w h' = Thrown e) ->
  exists e evs,
    updateOrgTargets_source w publicOrgId dry host source h l
      = (Thrown e, evs, l).
Proof.
  intros Hpath. unfold updateOrgTargets_source.
  destruct (apply_configured w (isSourceConfigured w source) h l)
    as [[[[]|e] e1] l1] eqn:Hconf.
  - pose proof (apply_configured_locals w (isSourceConfigured w source) h l)
      as Hl.
    rewrite Hconf in Hl. simpl in Hl. subst l1.
    erewrite bind_returned by exact Hconf.
    unfold updateTargets, invoke, bind, call, result_of, events_of, locals_of.
    destruct (listTargets w (h ++ e1) publicOrgId _) as [targets|e]; simpl.
    + destruct (getLoggingPath w _) as [loggingPath|e] eqn:He; simpl.
      * match type of He with
        | getLoggingPath w ?past = _ => destruct (Hpath past) as [e He']
        end.
        rewrite He' in He. discriminate He.
      * by eexists _, _.
    + by eexists _, _.
  - pose proof (apply_configured_locals w (isSourceConfigured w source) h l)
      as Hl.
    rewrite Hconf in Hl. simpl in Hl. subst l1.
    erewrite bind_thrown by exact Hconf. by eexists _, _.
Qed.

(** So the guarded reads at the end of [updateOrgTargets] cannot be what
    saves a run from a resolver that always throws: no such run returns. *)
Lemma updateOrgTargets_never_returns_without_logging_path
    w publicOrgId sources dry host h :
  (forall h', exists e, getLoggingPath w h' = Thrown e) ->
  exists e,
    (run (updateOrgTargets w publicOrgId sources dry host) h).1 = Thrown e.
Proof.
  intros Hpath. unfold run. rewrite updateOrgTargets_checks.
  case_bool_decide as Hallowed; [by eexists|].
  destruct (getFeatureFlag w h "customBranch" publicOrgId) as [[|]|e];
    simpl; [by eexists| |by eexists].
  destruct (allowedSources sources) as [|source rest]; [done|].
  unfold after_the_checks, result_of. rewrite pMap_cons.
  unfold updateOrgTargets_mapper.
  set (h1 := h ++ [_]).
  destruct (updateOrgTargets_source_throws_without_logging_path
              w publicOrgId dry host source h1 res_initial Hpath)
    as (e & evs & Hsource).
  exists e.
  rewrite (bind_thrown _ _ _ _ e evs res_initial); [done|].
  apply bind_thrown. apply bind_thrown. exact Hsource.
Qed.

(** ** The failure boundary around a target *)

Lemma syncProjectsForTarget_locals {L} w orgId t dry host h (l : L) :
  locals_of (syncProjectsForTarget w orgId t dry host h l) = l.
Proof.
  unfold syncProjectsForTarget, invoke, locals_of.
  by destruct (bind _ _ h _) as [[r evs] l1].
Qed.

(** The mapper catches what [syncProjectsForTarget] throws: it warns, logs
    the failed sync, and leaves the variables as they were. *)
Lemma updateTargets_mapper_catches w orgId dry host loggingPath t h l m evs :
  syncProjectsForTarget w orgId t dry host h l
    = (Thrown (ThrownValue m), evs, l) ->
  logFailedSync w
      (h ++ evs
         ++ [EvConsoleWarn
               (Some ("Failed to sync target " +:+ displayName (attributes t)
                      +:+ ". ERROR: " +:+ template m))])
      orgId t m loggingPath
    = Returned tt ->
  updateTargets_mapper w orgId dry host loggingPath t h l =
    (Returned tt,
     evs ++ [EvConsoleWarn
               (Some ("Failed to sync target " +:+ displayName (attributes t)
                      +:+ ". ERROR: " +:+ template m));
             EvLogFailedSync orgId t m loggingPath (Returned tt)],
     l).
Proof.
  intros Hsync Hlog. unfold updateTargets_mapper.
  erewrite try_catch_thrown;
    [|unfold updateTargets_try; by apply bind_thrown].
  unfold updateTargets_catch, result_of, events_of, locals_of.
  unfold bind, message_of, ret, emit, call. simpl.
  rewrite !app_nil_r, <- !app_assoc. by rewrite Hlog.
Qed.

(** C1, as the code has it.  Let the targets [before] have been processed,
    from the past [h0] and the variables [l0], leaving the variables at [l].
    When [syncProjectsForTarget] then throws for the target [t] (project
    listing, default-branch lookup, or an unexpected error; the thrown
    value not being [null] or [undefined]) and the failed-sync logger
    returns, the exception is caught by the mapper, which leaves
    [processedTargets], [updatedProjects] and [failedProjects] as they
    were; and the whole sequence [before ++ t :: after] ends as the targets
    [after] do when they are processed from those same variables [l]. *)
Theorem updateTargets_skips_target_that_fails
    w orgId dry host loggingPath before t after h0 l0 e0 l m evs :
  pMap (updateTargets_mapper w orgId dry host loggingPath) before h0 l0
    = (Returned tt, e0, l) ->
  syncProjectsForTarget w orgId t dry host (h0 ++ e0) l
    = (Thrown (ThrownValue m), evs, l) ->
  logFailedSync w
      ((h0 ++ e0) ++ evs
         ++ [EvConsoleWarn
               (Some ("Failed to sync target " +:+ displayName (attributes t)
                      +:+ ". ERROR: " +:+ template m))])
      orgId t m loggingPath
    = Returned tt ->
  let mapper := updateTargets_mapper w orgId dry host loggingPath in
  let skipped :=
    evs ++ [EvConsoleWarn
              (Some ("Failed to sync target " +:+ displayName (attributes t)
                     +:+ ". ERROR: " +:+ template m));
            EvLogFailedSync orgId t m loggingPath (Returned tt)] in
  let remaining := pMap mapper after ((h0 ++ e0) ++ skipped) l in
  mapper t (h0 ++ e0) l = (Returned tt, skipped, l) /\
  pMap mapper (before ++ t :: after) h0 l0 =
    (result_of remaining, e0 ++ skipped ++ events_of remaining,
     locals_of remaining).
Proof.
  intros Hbefore Hsync Hlog mapper skipped remaining.
  pose proof (updateTargets_mapper_catches _ _ _ _ _ _ _ _ _ _ Hsync Hlog)
    as Hmapper.
  split; [exact Hmapper|].
  erewrite pMap_app_returned by exact Hbefore.
  erewrite pMap_step by exact Hmapper.
  unfold result_of, events_of, locals_of. reflexivity.
Qed.

Lemma updateTargets_skips_target_that_fails_witness :
  pMap (updateTargets_mapper Scenario.listing_rejected "xxx" false None ".")
       ([Scenario.bar] ++ Scenario.foo :: [])
       [EvGetLoggingPath (Returned ".")]
       {| var_processedTargets := 0;
          var_updatedProjects := [];
          var_failedProjects := [] |}
  = (Returned tt,
     [EvListProjects "xxx" "target-bar" (Thrown (ThrownValue None));
      EvConsoleWarn (Some "Failed to sync target snyk/bar. ERROR: undefined");
      EvLogFailedSync "xxx" Scenario.bar None "." (Returned tt);
      EvListProjects "xxx" "target-foo" (Thrown (ThrownValue None));
      EvConsoleWarn (Some "Failed to sync target snyk/foo. ERROR: undefined");
      EvLogFailedSync "xxx" Scenario.foo None "." (Returned tt)],
     {| var_processedTargets := 0;
        var_updatedProjects := [];
        var_failedProjects := [] |}).
Proof.
  refine (proj2 (updateTargets_skips_target_that_fails
                   Scenario.listing_rejected "xxx" false None "."
                   [Scenario.bar] Scenario.foo []
                   [EvGetLoggingPath (Returned ".")] _
                   [EvListProjects "xxx" "target-bar"
                      (Thrown (ThrownValue None));
                    EvConsoleWarn
                      (Some "Failed to sync target snyk/bar. ERROR: undefined");
                    EvLogFailedSync "xxx" Scenario.bar None "." (Returned tt)]
                   _ None
                   [EvListProjects "xxx" "target-foo"
                      (Thrown (ThrownValue None))]
                   _ _ _));
    reflexivity.
Defined.

(** C1, as stated, fails for a throw of the loggers.  The log of updated
    projects cannot be written: processing the target throws inside the
    [try] block, and yet the target is counted and its update is in the
    returned sequence, because both were recorded before the logger was
    called. *)
Lemma updateTargets_counts_target_whose_log_fails :
  let w := Scenario.updated_log_fails in
  let update :=
    {| projectPublicId := "project-bar";
       from := Some "main";
       to := "new-branch";
       update_type := BRANCH;
       dryRun := false;
       target := Some Scenario.bar |} in
  result_of
    (updateTargets_try w "xxx" false None Scenario.bar
       [EvGetLoggingPath (Returned ".")]
       {| var_processedTargets := 0;
          var_updatedProjects := [];
          var_failedProjects := [] |})
    = Thrown (new_Error "EACCES: permission denied") /\
  (run (updateTargets w "xxx" [Scenario.bar] false None) []).1
    = Returned
        {| processedTargets := 1;
           meta := {| projects := {| updated := [update]; failed := [] |} |} |}.
Proof. split; reflexivity. Qed.

(** The boundary does not hold what its own handler throws: when the log of
    failed syncs cannot be written, the rejection escapes the mapper and
    [updateTargets] rejects without starting the remaining target. *)
Lemma updateTargets_rejects_when_failed_sync_log_fails :
  run (updateTargets Scenario.failed_sync_log_fails "xxx"
         [Scenario.bar; Scenario.foo] false None) [] =
    (Thrown (new_Error "EACCES: permission denied"),
     [EvGetLoggingPath (Returned ".");
      EvListProjects "xxx" "target-bar" (Thrown (ThrownValue None));
      EvConsoleWarn (Some "Failed to sync target snyk/bar. ERROR: undefined");
      EvLogFailedSync "xxx" Scenario.bar None "."
        (Thrown (new_Error "EACCES: permission denied"))]).
Proof. reflexivity. Qed.

(** Nor a rejection with [undefined]: reading its [message] throws inside
    the handler. *)
Lemma updateTargets_rejects_on_undefined_rejection :
  run (updateTargets Scenario.rejects_with_undefined "xxx"
         [Scenario.bar; Scenario.foo] false None) [] =
    (Thrown TypeError_message_of_nullish,
     [EvGetLoggingPath (Returned ".");
      EvListProjects "xxx" "target-bar" (Thrown ThrownNullish)]).
Proof. reflexivity. Qed.

(** ** The decision for one project *)

(** The decision never throws. *)
Lemma BranchDecisionMaker_returns {L} w orgId p b dry h (l : L) :
  exists d evs, BranchDecisionMaker w orgId p b dry h l = (Returned d, evs, l).
Proof.
  unfold BranchDecisionMaker. case_bool_decide; [by eexists _, _|].
  destruct dry; [by eexists _, _|].
  unfold try_catch, bind, call, ret.
  destruct (updateProject w h orgId (project_id p) b); by eexists _, _.
Qed.

(** The work for one project never throws, and it only appends. *)
Lemma syncProject_appends w orgId b dry p h l :
  exists evs us fs,
    syncProject w orgId b dry p h l =
      (Returned tt, evs,
       {| updated := updated l ++ us; failed := failed l ++ fs |}).
Proof.
  unfold syncProject.
  destruct (BranchDecisionMaker_returns w orgId p b dry h l) as (d & evs & Hd).
  erewrite bind_returned by exact Hd.
  destruct l as [us0 fs0].
  destruct d as [|u|f]; unfold result_of, events_of, locals_of; simpl.
  - exists (evs ++ []), [], []. by rewrite !app_nil_r.
  - exists (evs ++ []), [u], []. by rewrite !app_nil_r.
  - exists (evs ++ []), [], [f]. by rewrite !app_nil_r.
Qed.

Lemma pMap_syncProject_appends w orgId b dry ps h l :
  exists evs us fs,
    pMap (syncProject w orgId b dry) ps h l =
      (Returned tt, evs,
       {| updated := updated l ++ us; failed := failed l ++ fs |}).
Proof.
  revert h l. induction ps as [|p ps IH]; intros h l.
  - exists [], [], []. destruct l. by rewrite !app_nil_r.
  - destruct (syncProject_appends w orgId b dry p h l)
      as (evs & us & fs & Hp).
    destruct (IH (h ++ evs)
                 {| updated := updated l ++ us; failed := failed l ++ fs |})
      as (evs' & us' & fs' & Hps).
    exists (evs ++ evs'), (us ++ us'), (fs ++ fs').
    erewrite pMap_step by exact Hp. rewrite Hps.
    unfold result_of, events_of, locals_of. simpl.
    by rewrite !app_assoc.
Qed.




(** ** Merging the results of the sources *)

(** The unit of work of a source does not depend on the variables of its
    caller, and leaves them as they are. *)
Lemma updateOrgTargets_source_frame {L} w publicOrgId dry host source h (l : L) :
  updateOrgTargets_source w publicOrgId dry host source h l =
    (result_of (updateOrgTargets_source w publicOrgId dry host source h tt),
     events_of (updateOrgTargets_source w publicOrgId dry host source h tt),
     l).
Proof.
  unfold updateOrgTargets_source, updateTargets, invoke, apply_configured.
  unfold result_of, events_of, bind, call, throw.
  destruct (isSourceConfigured w source) as [check|name|]; simpl; [| |done].
  - destruct (check h); simpl; [|done].
    destruct (listTargets w _ _ _); simpl; [|done].
    destruct (getLoggingPath w _); simpl; [|done].
    by destruct (pMap _ _ _ _) as [[[[]|e] evs] l1].
  - destruct (Object_prototype_call w name); simpl; [|done].
    destruct (listTargets w _ _ _); simpl; [|done].
    destruct (getLoggingPath w _); simpl; [|done].
    by destruct (pMap _ _ _ _) as [[[[]|e] evs] l1].
Qed.

Lemma resolve_log_file_locals {L} w name h (l : L) :
  locals_of (resolve_log_file w name h l) = l.
Proof.
  unfold resolve_log_file, try_catch, bind, call, locals_of.
  destruct (getLoggingPath w h) as [dir|[|m]]; reflexivity.
Qed.

(** [res] after the responses [rs] have been merged into it one by one. *)
Lemma res_merge_all rs res :
  let res' := foldl (fun acc r => res_merge r acc) res rs in
  processedTargets res' =
    processedTargets res + sum_list (map processedTargets rs) /\
  updated (projects (meta res')) =
    updated (projects (meta res))
      ++ concat (map (fun r => updated (projects (meta r))) rs) /\
  failed (projects (meta res')) =
    failed (projects (meta res))
      ++ concat (map (fun r => failed (projects (meta r))) rs).
Proof.
  revert res. induction rs as [|r rs IH]; intros res; simpl.
  - by rewrite Nat.add_0_r, !app_nil_r.
  - destruct (IH (res_merge r res)) as (Hn & Hu & Hf).
    rewrite Hn, Hu, Hf. simpl. rewrite <- !app_assoc. split; [lia|done].
Qed.

(** A [pMap] over the sources that settles has merged, in order, exactly
    what the units of work of the sources resolved to. *)
Lemma pMap_sources_merges w publicOrgId dry host allowed h res evs res' :
  pMap (updateOrgTargets_mapper w publicOrgId dry host) allowed h res
    = (Returned tt, evs, res') ->
  exists rs,
    run (source_responses w publicOrgId dry host allowed) h
      = (Returned rs, evs) /\
    res' = foldl (fun acc r => res_merge r acc) res rs.
Proof.
  revert h res evs res'. induction allowed as [|s rest IH];
    intros h res evs res'.
  - intros [= <- <-]. by exists [].
  - rewrite pMap_cons.
    intros (() & e1 & l1 & e2 & Hmapper & Hrest & ->)%bind_returned_inv.
    unfold updateOrgTargets_mapper in Hmapper.
    apply bind_returned_inv in Hmapper
      as (response & e1' & l1' & e2' & Hsource & Hmerge & ->).
    injection Hmerge as <- <-.
    rewrite updateOrgTargets_source_frame in Hsource.
    injection Hsource as Hr He <-.
    rewrite app_nil_r in Hrest |- *.
    destruct (IH _ _ _ _ Hrest) as (rs & Hrs & ->).
    exists (response :: rs). split; [|done].
    unfold run, source_responses in *. simpl.
    unfold bind at 1.
    destruct (updateOrgTargets_source w publicOrgId dry host s h tt)
      as [[r0 evs0] []] eqn:Hs0.
    unfold result_of, events_of in Hr, He. simpl in Hr, He. subst r0 evs0.
    unfold bind at 1.
    destruct (mapM _ rest (h ++ e1') tt) as [[r1 evs1] []] eqn:Hm.
    simpl in Hrs. injection Hrs as -> ->. simpl. by rewrite app_nil_r.
Qed.

Lemma updates_of_concat pid (ls : list (list ProjectUpdate)) :
  updates_of pid (concat ls) = sum_list (map (updates_of pid) ls).
Proof.
  unfold updates_of. induction ls as [|l ls IH]; simpl; [done|].
  by rewrite filter_app, length_app, IH.
Qed.

Lemma failures_of_concat pid (ls : list (list ProjectUpdateFailure)) :
  failures_of pid (concat ls) = sum_list (map (failures_of pid) ls).
Proof.
  unfold failures_of. induction ls as [|l ls IH]; simpl; [done|].
  by rewrite filter_app, length_app, IH.
Qed.



(** ** Dry runs *)

Section Accounting.
Variable orgId : string.
Variable host : option string.

Lemma not_visited_quiet evs t ps b :
  Forall (fun ev => ~ fetched ev) evs -> ~ visited orgId host evs t ps b.
Proof.
  intros Hq (before & after & ->).
  rewrite Forall_app, Forall_cons, Forall_cons in Hq.
  destruct Hq as (_ & _ & Hf & _). by apply Hf.
Qed.

(** A visit in two consecutive stretches of calls lies in one of them,
    unless the second stretch opens with the fetch. *)
Lemma visited_app e1 e2 t ps b :
  visited orgId host (e1 ++ e2) t ps b ->
  ~ fetch_first e2 ->
  visited orgId host e1 t ps b \/ visited orgId host e2 t ps b.
Proof.
  intros (before & after & Heq) Hfirst.
  apply app_eq_inv in Heq as [(k & -> & Hk)|(k & -> & ->)].
  - destruct k as [|a [|c k]]; simpl in Hk.
    + right. exists [], after. by rewrite Hk.
    + injection Hk as _ Hk. subst e2. destruct Hfirst. exact I.
    + injection Hk as <- <- ->. left. by exists before, k.
  - right. by exists k, after.
Qed.

Lemma accounted_quiet evs us :
  Forall (fun ev => ~ fetched ev) evs -> accounted orgId host evs us us.
Proof.
  intros Hq. split; [|split].
  - destruct Hq as [|ev evs Hev _]; simpl; tauto.
  - exists []. by rewrite app_nil_r.
  - intros t ps b Hv. by destruct (not_visited_quiet _ _ _ _ Hq Hv).
Qed.

Lemma accounted_app e1 e2 us0 us1 us2 :
  accounted orgId host e1 us0 us1 ->
  accounted orgId host e2 us1 us2 ->
  accounted orgId host (e1 ++ e2) us0 us2.
Proof.
  intros (Hf1 & (m1 & ->) & Hv1) (Hf2 & (m2 & ->) & Hv2). split; [|split].
  - destruct e1; [exact Hf2 | exact Hf1].
  - exists (m1 ++ m2). by rewrite app_assoc.
  - intros t ps b [Hv|Hv]%visited_app p Hp Hne; [| |done].
    + apply elem_of_app. left. by apply (Hv1 t ps b).
    + by apply (Hv2 t ps b).
Qed.

Lemma accounted_cons ev evs us0 us1 :
  ~ fetched ev ->
  accounted orgId host evs us0 us1 ->
  accounted orgId host (ev :: evs) us0 us1.
Proof.
  intros Hev Hacc. change (ev :: evs) with ([ev] ++ evs).
  eapply accounted_app; [|exact Hacc].
  apply accounted_quiet. by repeat constructor.
Qed.

(** What was accounted for from nothing is accounted for after any
    sequence it is appended to. *)
Lemma accounted_frame evs us new :
  accounted orgId host evs [] new ->
  accounted orgId host evs us (us ++ new).
Proof.
  intros (Hf & _ & Hv). split; [done|]. split; [by exists new|].
  intros t ps b Hvis p Hp Hne. apply elem_of_app. right.
  by apply (Hv t ps b).
Qed.

Lemma dry_update_in_records t p b ps :
  p ∈ ps -> branch p <> Some b ->
  dry_update t p b ∈ map (with_target t) (dry_records b ps).
Proof.
  intros Hp Hne. apply list_elem_of_In.
  change (dry_update t p b)
    with (with_target t
            {| projectPublicId := project_id p;
               from := branch p;
               to := b;
               update_type := BRANCH;
               dryRun := true;
               target := None |}).
  apply in_map. unfold dry_records.
  apply (in_map (fun p => {| projectPublicId := project_id p;
                             from := branch p;
                             to := b;
                             update_type := BRANCH;
                             dryRun := true;
                             target := None |})).
  apply list_elem_of_In, list_elem_of_filter. done.
Qed.

(** The two calls of a visit account for the records of the listing. *)
Lemma accounted_visit t ps b us :
  accounted orgId host
    [EvListProjects orgId (id t) (Returned ps);
     EvGetDefaultBranch t host (Returned b)]
    us (us ++ map (with_target t) (dry_records b ps)).
Proof.
  split; [simpl; tauto|]. split; [by eexists|].
  intros t' ps' b' (before & after & Heq) p Hp Hne.
  destruct before as [|a [|c before]]; simpl in Heq.
  - simplify_eq/=.
    apply elem_of_app. right. by apply dry_update_in_records.
  - simplify_eq/=.
  - simplify_eq/=. by destruct before.
Qed.

Lemma accounted_visit_then_quiet t ps b us rest :
  Forall (fun ev => ~ fetched ev) rest ->
  accounted orgId host
    (EvListProjects orgId (id t) (Returned ps)
       :: EvGetDefaultBranch t host (Returned b) :: rest)
    us (us ++ map (with_target t) (dry_records b ps)).
Proof.
  intros Hq.
  change (accounted orgId host
            ([EvListProjects orgId (id t) (Returned ps);
              EvGetDefaultBranch t host (Returned b)] ++ rest)
            us (us ++ map (with_target t) (dry_records b ps))).
  eapply accounted_app; [apply accounted_visit | by apply accounted_quiet].
Qed.

(** A [pMap] that settles keeps the account as soon as every mapper that
    settles does. *)
Lemma pMap_accounted {L X} (upd : L -> list ProjectUpdate)
    (mapper : X -> M L unit) :
  (forall x h l evs l',
     mapper x h l = (Returned tt, evs, l') ->
     accounted orgId host evs (upd l) (upd l')) ->
  forall items h l evs l',
    pMap mapper items h l = (Returned tt, evs, l') ->
    accounted orgId host evs (upd l) (upd l').
Proof.
  intros Hmapper items. induction items as [|x rest IH]; intros h l evs l'.
  - intros [= <- <-]. by apply accounted_quiet.
  - rewrite pMap_cons.
    intros (() & e1 & l1 & e2 & Hx & Hrest & ->)%bind_returned_inv.
    eapply accounted_app; [by eapply Hmapper | by eapply IH].
Qed.

Variable w : World.

(** *** One target *)

Lemma dry_records_cons b p ps :
  dry_records b (p :: ps) = dry_records b [p] ++ dry_records b ps.
Proof.
  unfold dry_records. change (p :: ps) with ([p] ++ ps).
  by rewrite filter_app, map_app.
Qed.

Lemma pMap_syncProject_dry b ps h l :
  pMap (syncProject w orgId b true) ps h l =
    (Returned tt, [],
     {| updated := updated l ++ dry_records b ps; failed := failed l |}).
Proof.
  revert h l. induction ps as [|p ps IH]; intros h l.
  - destruct l. unfold dry_records. simpl. by rewrite app_nil_r.
  - assert (syncProject w orgId b true p h l =
              (Returned tt, [],
               {| updated := updated l ++ dry_records b [p];
                  failed := failed l |})) as Hp.
    { unfold syncProject, BranchDecisionMaker, dry_records.
      destruct l as [us fs]. case_bool_decide as Hb; simpl.
      - rewrite filter_cons_False by (intros Hn; by apply Hn).
        simpl. by rewrite app_nil_r.
      - by rewrite filter_cons_True. }
    erewrite pMap_step by exact Hp. rewrite app_nil_r, IH.
    unfold result_of, events_of, locals_of. simpl.
    by rewrite (dry_records_cons b p ps), app_assoc.
Qed.

(** The two ways a dry run of [syncProjectsForTarget] ends. *)
Lemma syncProjectsForTarget_dry {L} t h (l : L) :
  (exists ps b,
     syncProjectsForTarget w orgId t true host h l =
       (Returned {| updated := map (with_target t) (dry_records b ps);
                    failed := [] |},
        [EvListProjects orgId (id t) (Returned ps);
         EvGetDefaultBranch t host (Returned b)],
        l)) \/
  (exists e evs,
     syncProjectsForTarget w orgId t true host h l = (Thrown e, evs, l) /\
     Forall (fun ev => ~ fetched ev) evs).
Proof.
  destruct (listProjects w h orgId (id t)) as [ps|e] eqn:Hps.
  - destruct (getGithubReposDefaultBranch w
                (h ++ [EvListProjects orgId (id t) (Returned ps)]) t host)
      as [b|e] eqn:Hb.
    + left. exists ps, b.
      unfold syncProjectsForTarget, invoke, bind, call, get, ret.
      rewrite Hps, Hb, pMap_syncProject_dry. reflexivity.
    + right. eexists _, _. split.
      * unfold syncProjectsForTarget, invoke, bind, call.
        rewrite Hps, Hb. reflexivity.
      * repeat constructor; simpl; tauto.
  - right. eexists _, _. split.
    + unfold syncProjectsForTarget, invoke, bind, call.
      rewrite Hps. reflexivity.
    + repeat constructor; simpl; tauto.
Qed.

Lemma updateTargets_after_sync_quiet r :
  emits (fun ev => ~ fetched ev) (updateTargets_after_sync w orgId r).
Proof.
  unfold updateTargets_after_sync.
  emits_auto fail; case_bool_decide; emits_auto fail.
Qed.

Lemma updateTargets_after_sync_locals r h l :
  var_updatedProjects (locals_of (updateTargets_after_sync w orgId r h l))
    = var_updatedProjects l ++ updated r.
Proof.
  unfold updateTargets_after_sync, locals_of, bind, modify, call, ret.
  simpl. repeat case_bool_decide; simpl; repeat case_match; simplify_eq/=;
    reflexivity.
Qed.

Lemma updateTargets_catch_quiet loggingPath t e :
  emits (fun ev => ~ fetched ev) (updateTargets_catch w orgId loggingPath t e).
Proof. unfold updateTargets_catch. emits_auto fail. Qed.

Lemma updateTargets_catch_locals loggingPath t e h l :
  locals_of (updateTargets_catch w orgId loggingPath t e h l) = l.
Proof.
  unfold updateTargets_catch, locals_of, bind, message_of, emit, call, ret,
    throw.
  destruct e; reflexivity.
Qed.

(** Whatever way the mapper of [updateTargets] ends in a dry run, the
    updates of the target it visited are in [updatedProjects]. *)
Lemma updateTargets_mapper_accounted loggingPath t h l :
  accounted orgId host
    (events_of (updateTargets_mapper w orgId true host loggingPath t h l))
    (var_updatedProjects l)
    (var_updatedProjects
       (locals_of (updateTargets_mapper w orgId true host loggingPath t h l))).
Proof.
  unfold updateTargets_mapper, updateTargets_try.
  destruct (syncProjectsForTarget_dry t h l)
    as [(ps & b & Hsync)|(e & evs & Hsync & Hquiet)].
  - set (r := {| updated := map (with_target t) (dry_records b ps);
                 failed := [] |}) in *.
    set (es := [EvListProjects orgId (id t) (Returned ps);
                EvGetDefaultBranch t host (Returned b)]) in *.
    pose proof (updateTargets_after_sync_quiet r (h ++ es) l) as Hq.
    pose proof (updateTargets_after_sync_locals r (h ++ es) l) as Hl.
    destruct (updateTargets_after_sync w orgId r (h ++ es) l)
      as [[[[]|e] ea] la] eqn:Hafter;
      unfold events_of, locals_of in Hq, Hl; simpl in Hq, Hl.
    + erewrite try_catch_returned;
        [|erewrite bind_returned by exact Hsync; rewrite Hafter; reflexivity].
      unfold events_of, locals_of. simpl. rewrite Hl.
      by apply accounted_visit_then_quiet.
    + erewrite try_catch_thrown;
        [|erewrite bind_returned by exact Hsync; rewrite Hafter; reflexivity].
      unfold events_of at 1, locals_of at 1. simpl.
      rewrite updateTargets_catch_locals, Hl.
      apply accounted_visit_then_quiet, Forall_app. split; [done|].
      apply updateTargets_catch_quiet.
  - erewrite try_catch_thrown; [|by apply bind_thrown].
    unfold events_of at 1, locals_of at 1. simpl.
    rewrite updateTargets_catch_locals.
    apply accounted_quiet, Forall_app. split; [done|].
    apply updateTargets_catch_quiet.
Qed.

(** *** One source *)

Lemma updateTargets_accounted {L} targets h (l : L) r evs l' :
  updateTargets w orgId targets true host h l = (Returned r, evs, l') ->
  accounted orgId host evs [] (updated (projects (meta r))).
Proof.
  unfold updateTargets, invoke.
  destruct (bind _ _ h _) as [[r0 evs0] l0] eqn:Hbody.
  intros [= -> -> _].
  apply bind_returned_inv in Hbody
    as (loggingPath & e1 & l1 & e2 & Hpath & Hbody & ->).
  apply bind_returned_inv in Hbody as (() & e3 & l3 & e4 & Hmap & Hbody & ->).
  injection Hbody as <- <-.
  unfold call in Hpath. injection Hpath as _ <- <-.
  eapply accounted_app.
  { apply accounted_quiet. repeat constructor. simpl. tauto. }
  rewrite app_nil_r.
  apply (pMap_accounted var_updatedProjects _) in Hmap; [exact Hmap|].
  intros t h' la eva la' Hmapper.
  pose proof (updateTargets_mapper_accounted loggingPath t h' la) as Hacc.
  by rewrite Hmapper in Hacc.
Qed.

Lemma apply_configured_quiet {L} source :
  emits (fun ev => ~ fetched ev)
        (@apply_configured L w (isSourceConfigured w source)).
Proof.
  unfold apply_configured.
  destruct (isSourceConfigured w source);
    [emits_auto fail| |emits_auto fail].
  intros h l. constructor.
Qed.

Lemma updateOrgTargets_mapper_accounted source h res evs res' :
  updateOrgTargets_mapper w orgId true host source h res
    = (Returned tt, evs, res') ->
  accounted orgId host evs (updated (projects (meta res)))
            (updated (projects (meta res'))).
Proof.
  unfold updateOrgTargets_mapper.
  intros (response & e1 & l1 & e2 & Hsource & Hmerge & ->)%bind_returned_inv.
  injection Hmerge as <- <-. rewrite app_nil_r.
  unfold updateOrgTargets_source in Hsource.
  apply bind_returned_inv in Hsource
    as (() & e3 & l3 & e4 & Hconf & Hsource & ->).
  apply bind_returned_inv in Hsource
    as (targets & e5 & l5 & e6 & Hlist & Hsource & ->).
  pose proof (apply_configured_quiet source h res) as Hq.
  rewrite Hconf in Hq. unfold events_of in Hq. simpl in Hq.
  unfold call in Hlist. injection Hlist as _ <- <-.
  pose proof Hsource as Hl. apply (f_equal locals_of) in Hl.
  unfold updateTargets, invoke, locals_of in Hl.
  destruct (bind _ _ (_ ++ _) _) as [[r0 evs0] l0] in Hl. simpl in Hl.
  subst l1.
  pose proof (apply_configured_locals w (isSourceConfigured w source) h res)
    as Hl3.
  rewrite Hconf in Hl3. simpl in Hl3. subst l3.
  simpl. apply accounted_frame.
  eapply accounted_app; [by apply accounted_quiet|].
  apply accounted_cons; [simpl; tauto|].
  by eapply updateTargets_accounted.
Qed.

Lemma resolve_log_file_quiet {L} name :
  emits (fun ev => ~ fetched ev) (@resolve_log_file L w name).
Proof. unfold resolve_log_file. emits_auto fail. Qed.

End Accounting.



(** ** Counting the targets of a batch *)

Lemma failed_sync_logs_app e1 e2 :
  failed_sync_logs (e1 ++ e2) = failed_sync_logs e1 + failed_sync_logs e2.
Proof. unfold failed_sync_logs. by rewrite List.filter_app, length_app. Qed.

Lemma updateTargets_after_sync_counts w orgId r h l :
  var_processedTargets (locals_of (updateTargets_after_sync w orgId r h l))
    = var_processedTargets l + 1.
Proof.
  unfold updateTargets_after_sync, locals_of, bind, modify, call, ret.
  simpl. repeat case_bool_decide; simpl; repeat case_match; simplify_eq/=;
    reflexivity.
Qed.

(** A handler that returns has logged the failed sync. *)
Lemma updateTargets_catch_returned w orgId loggingPath t e h l evs l' :
  updateTargets_catch w orgId loggingPath t e h l = (Returned tt, evs, l') ->
  l' = l /\ failed_sync_logs evs = 1.
Proof.
  unfold updateTargets_catch, bind, message_of, emit, call, ret, throw.
  destruct e as [|m]; simpl; [done|].
  destruct (logFailedSync w _ orgId t m loggingPath) as [[]|]; [|done].
  by intros [= <- <-].
Qed.

(** A mapper that settles has counted its target or logged its failed
    sync. *)
Lemma updateTargets_mapper_counts w orgId dry host loggingPath t h l evs l' :
  updateTargets_mapper w orgId dry host loggingPath t h l
    = (Returned tt, evs, l') ->
  var_processedTargets l <= var_processedTargets l' /\
  var_processedTargets l' <= var_processedTargets l + 1 /\
  var_processedTargets l + 1 <= var_processedTargets l' + failed_sync_logs evs.
Proof.
  unfold updateTargets_mapper, updateTargets_try.
  pose proof (syncProjectsForTarget_locals w orgId t dry host h l) as Hl.
  destruct (syncProjectsForTarget w orgId t dry host h l)
    as [[[r|e] es] l0] eqn:Hsync; simpl in Hl; subst l0.
  - pose proof (updateTargets_after_sync_counts w orgId r (h ++ es) l) as Hn.
    destruct (updateTargets_after_sync w orgId r (h ++ es) l)
      as [[[[]|e] ea] la] eqn:Hafter; unfold locals_of in Hn; simpl in Hn.
    + erewrite try_catch_returned;
        [|erewrite bind_returned by exact Hsync; rewrite Hafter; reflexivity].
      intros [= <- <-]. lia.
    + erewrite try_catch_thrown;
        [|erewrite bind_returned by exact Hsync; rewrite Hafter; reflexivity].
      unfold result_of, events_of, locals_of. simpl.
      destruct (updateTargets_catch w orgId loggingPath t e _ la)
        as [[rh eh] lh] eqn:Hcatch.
      simpl. intros [= -> <- <-].
      apply updateTargets_catch_returned in Hcatch as [-> _]. lia.
  - erewrite try_catch_thrown; [|by apply bind_thrown].
    unfold result_of, events_of, locals_of.
    destruct (updateTargets_catch w orgId loggingPath t e _ l)
      as [[rh eh] lh] eqn:Hcatch.
    simpl. intros [= -> <- <-].
    apply updateTargets_catch_returned in Hcatch as [-> Hone].
    rewrite failed_sync_logs_app. lia.
Qed.

Lemma pMap_updateTargets_counts w orgId dry host loggingPath targets h l evs l' :
  pMap (updateTargets_mapper w orgId dry host loggingPath) targets h l
    = (Returned tt, evs, l') ->
  var_processedTargets l <= var_processedTargets l' /\
  var_processedTargets l' <= var_processedTargets l + length targets /\
  var_processedTargets l + length targets
    <= var_processedTargets l' + failed_sync_logs evs.
Proof.
  revert h l evs l'. induction targets as [|t rest IH]; intros h l evs l'.
  - intros [= <- <-]. simpl. lia.
  - rewrite pMap_cons.
    intros (() & e1 & l1 & e2 & Ht & Hrest & ->)%bind_returned_inv.
    apply updateTargets_mapper_counts in Ht. apply IH in Hrest.
    rewrite failed_sync_logs_app. simpl. lia.
Qed.

(** X1.  A batch that settles loses no target: [processedTargets] is at
    most the number of targets, and every target was either counted or
    handed to [logFailedSync]. *)
Theorem updateTargets_counts_or_logs_every_target
    w orgId targets dry host h r evs :
  run (updateTargets w orgId targets dry host) h = (Returned r, evs) ->
  processedTargets r <= length targets /\
  length targets <= processedTargets r + failed_sync_logs evs.
Proof.
  unfold run, updateTargets, invoke.
  destruct (bind _ _ h _) as [[r0 evs0] l0] eqn:Hbody.
  simpl. intros [= -> ->].
  apply bind_returned_inv in Hbody
    as (loggingPath & e1 & l1 & e2 & Hpath & Hbody & ->).
  apply bind_returned_inv in Hbody as (() & e3 & l3 & e4 & Hmap & Hbody & ->).
  injection Hbody as <- <- <-.
  unfold call in Hpath. injection Hpath as _ <- <-.
  apply pMap_updateTargets_counts in Hmap. simpl in Hmap |- *.
  rewrite app_nil_r. unfold failed_sync_logs in *. simpl. lia.
Qed.

Lemma updateTargets_counts_or_logs_every_target_witness :
  match
    run (updateTargets Scenario.listing_rejected "xxx"
           [Scenario.bar; Scenario.foo] false None) []
  with
  | (Returned r, evs) =>
      processedTargets r <= 2 /\ 2 <= processedTargets r + failed_sync_logs evs
  | (Thrown _, _) => False
  end.
Proof.
  destruct (run (updateTargets Scenario.listing_rejected "xxx"
                   [Scenario.bar; Scenario.foo] false None) [])
    as [[r|e] evs] eqn:Hrun; [|vm_compute in Hrun; discriminate Hrun].
  exact (updateTargets_counts_or_logs_every_target
           Scenario.listing_rejected "xxx" [Scenario.bar; Scenario.foo]
           false None [] r evs Hrun).
Defined.

(** When the loggers return, the statements after the await run to their
    end. *)
Lemma updateTargets_after_sync_returns w orgId r h l :
  (forall h' us, logUpdatedProjects w h' orgId us = Returned tt) ->
  (forall h' fs, logFailedToUpdateProjects w h' orgId fs = Returned tt) ->
  exists evs,
    updateTargets_after_sync w orgId r h l =
      (Returned tt, evs,
       processedTargets_incr
         (failedProjects_push (failed r)
            (updatedProjects_push (updated r) l))).
Proof.
  intros Hu Hf. unfold updateTargets_after_sync, bind, modify, call, ret.
  simpl. repeat case_bool_decide; simpl; rewrite ?Hu, ?Hf; simpl;
    by eexists.
Qed.

(** X2.  When the logging path resolves, [syncProjectsForTarget] returns
    for every target of the batch and the two project loggers return, the
    batch returns and [processedTargets] is the number of targets. *)
Theorem updateTargets_counts_all_targets_when_nothing_fails
    w orgId targets dry host h loggingPath :
  getLoggingPath w h = Returned loggingPath ->
  (forall t, t ∈ targets -> forall h' (l : TargetsLocals),
     exists r evs,
       syncProjectsForTarget w orgId t dry host h' l = (Returned r, evs, l)) ->
  (forall h' us, logUpdatedProjects w h' orgId us = Returned tt) ->
  (forall h' fs, logFailedToUpdateProjects w h' orgId fs = Returned tt) ->
  exists r evs,
    run (updateTargets w orgId targets dry host) h = (Returned r, evs) /\
    processedTargets r = length targets.
Proof.
  intros Hpath Hsync Hu Hf.
  assert (forall ts, (forall t, t ∈ ts -> t ∈ targets) -> forall h' l,
            exists evs l',
              pMap (updateTargets_mapper w orgId dry host loggingPath) ts h' l
                = (Returned tt, evs, l') /\
              var_processedTargets l' = var_processedTargets l + length ts)
    as Hloop.
  { induction ts as [|t rest IH]; intros Hin h' l.
    - exists [], l. split; [done|]. simpl. lia.
    - destruct (Hsync t (Hin t (list_elem_of_here _ _)) h' l)
        as (r & es & Ht).
      destruct (updateTargets_after_sync_returns w orgId r (h' ++ es) l Hu Hf)
        as (ea & Hafter).
      assert (updateTargets_mapper w orgId dry host loggingPath t h' l
              = (Returned tt, es ++ ea,
                 processedTargets_incr
                   (failedProjects_push (failed r)
                      (updatedProjects_push (updated r) l)))) as Hmapper.
      { unfold updateTargets_mapper, updateTargets_try.
        erewrite try_catch_returned; [reflexivity|].
        erewrite bind_returned by exact Ht. by rewrite Hafter. }
      destruct (IH (fun t' Ht' => Hin t' (list_elem_of_further _ _ _ Ht'))
                   (h' ++ es ++ ea)
                   (processedTargets_incr
                      (failedProjects_push (failed r)
                         (updatedProjects_push (updated r) l))))
        as (evs & l' & Hrest & Hn).
      eexists _, _. erewrite pMap_step by exact Hmapper. rewrite Hrest.
      split; [reflexivity|]. simpl in Hn |- *. lia. }
  destruct (Hloop targets (fun t Ht => Ht)
              (h ++ [EvGetLoggingPath (Returned loggingPath)])
              {| var_processedTargets := 0;
                 var_updatedProjects := [];
                 var_failedProjects := [] |})
    as (evs & l' & Hmap & Hn).
  eexists _, _.
  unfold run, updateTargets, invoke, bind at 1, call. rewrite Hpath.
  erewrite bind_returned by exact Hmap.
  unfold result_of, events_of, locals_of, bind, get, ret. simpl.
  split; [reflexivity|]. simpl in Hn |- *. lia.
Qed.

Lemma updateTargets_counts_all_targets_when_nothing_fails_witness :
  exists r evs,
    run (updateTargets Scenario.two_targets "xxx" [Scenario.bar; Scenario.foo]
           true None) [] = (Returned r, evs) /\
    processedTargets r = 2.
Proof.
  apply (updateTargets_counts_all_targets_when_nothing_fails
           Scenario.two_targets "xxx" [Scenario.bar; Scenario.foo] true None
           [] ".").
  - reflexivity.
  - intros t Ht h' l.
    apply elem_of_cons in Ht as [->|Ht];
      [|apply list_elem_of_singleton in Ht as ->];
      eexists _, _; reflexivity.
  - reflexivity.
  - reflexivity.
Defined.

(** ** What the collaborators are called with *)

Lemma emits_pMap_in {L X} P (mapper : X -> M L unit) items :
  (forall x, x ∈ items -> emits P (mapper x)) -> emits P (pMap mapper items).
Proof.
  induction items as [|x rest IH]; intros Hm; simpl.
  - apply emits_ret.
  - apply emits_bind; [apply Hm, list_elem_of_here|].
    intros _. apply IH. intros y Hy. by apply Hm, list_elem_of_further.
Qed.

Lemma emits_weaken {L A} (P Q : Event -> Prop) (m : M L A) :
  (forall ev, P ev -> Q ev) -> emits P m -> emits Q m.
Proof. intros HPQ Hm h l. eapply Forall_impl; [apply Hm | exact HPQ]. Qed.

Ltac emits_cases known fin :=
  repeat first
    [ progress intros
    | known
    | apply emits_ret | apply emits_throw | apply emits_get
    | apply emits_modify | apply emits_message_of
    | apply emits_bind | apply emits_try_catch | apply emits_pMap
    | apply emits_invoke
    | apply emits_emit; fin
    | apply emits_call; intros; fin
    | case_bool_decide
    | case_match ].

(** [syncProjectsForTarget] calls neither the flag reader nor the target
    lister nor a logger. *)
Lemma syncProjectsForTarget_plain {L} w orgId t dry host :
  emits plain_call (@syncProjectsForTarget L w orgId t dry host).
Proof.
  unfold syncProjectsForTarget, syncProject, BranchDecisionMaker.
  emits_cases fail ltac:(exact I).
Qed.

Section CallsOfABatch.
Variable w : World.
Variable orgId : string.
Variable dry : bool.
Variable host : option string.
Variable P : Event -> Prop.
Hypothesis P_plain : forall ev, plain_call ev -> P ev.
Hypothesis P_updated :
  forall us r, us <> [] -> P (EvLogUpdatedProjects orgId us r).
Hypothesis P_failed :
  forall fs r, fs <> [] -> P (EvLogFailedToUpdateProjects orgId fs r).

Lemma updateTargets_after_sync_calls r :
  emits P (updateTargets_after_sync w orgId r).
Proof.
  unfold updateTargets_after_sync.
  emits_cases fail ltac:(first
    [ apply P_updated; intros Heq; rewrite Heq in *; done
    | apply P_failed; intros Heq; rewrite Heq in *; done ]).
Qed.

Lemma updateTargets_calls {L} targets :
  emits P (@updateTargets L w orgId targets dry host).
Proof.
  unfold updateTargets, updateTargets_mapper, updateTargets_try,
    updateTargets_catch.
  emits_cases
    ltac:(first
      [ eapply emits_weaken;
          [exact P_plain | apply syncProjectsForTarget_plain]
      | apply updateTargets_after_sync_calls ])
    ltac:(apply P_plain; exact I).
Qed.

End CallsOfABatch.

Section CallsOfARun.
Variable w : World.
Variable publicOrgId : string.
Variable dry : bool.
Variable host : option string.
Variable P : Event -> Prop.
Hypothesis P_plain : forall ev, plain_call ev -> P ev.
Hypothesis P_updated :
  forall us r, us <> [] -> P (EvLogUpdatedProjects publicOrgId us r).
Hypothesis P_failed :
  forall fs r, fs <> [] -> P (EvLogFailedToUpdateProjects publicOrgId fs r).
Hypothesis P_listed :
  forall r,
    P (EvListTargets publicOrgId
         {| limit := 100; filter_origin := GITHUB; excludeEmpty := true |} r).
Hypothesis P_flag :
  forall r, P (EvGetFeatureFlag "customBranch" publicOrgId r).

Lemma updateOrgTargets_mapper_calls source :
  source ∈ SupportedIntegrationTypesUpdateProject_values ->
  emits P (updateOrgTargets_mapper w publicOrgId dry host source).
Proof.
  intros ->%list_elem_of_singleton.
  unfold updateOrgTargets_mapper, updateOrgTargets_source.
  rewrite isSourceConfigured_github. unfold apply_configured.
  emits_cases
    ltac:(by apply updateTargets_calls)
    ltac:(first [apply P_listed | apply P_plain; exact I]).
Qed.

Lemma after_the_checks_calls sources :
  emits P (after_the_checks w publicOrgId dry host (allowedSources sources)).
Proof.
  unfold after_the_checks, resolve_log_file.
  emits_cases
    ltac:(apply emits_pMap_in; intros source Hsource;
          apply updateOrgTargets_mapper_calls;
          by apply (allowedSources_supported sources))
    ltac:(apply P_plain; exact I).
Qed.

Lemma updateOrgTargets_calls sources h :
  Forall P (run (updateOrgTargets w publicOrgId sources dry host) h).2.
Proof.
  unfold run. rewrite updateOrgTargets_checks.
  case_bool_decide; simpl; [constructor|].
  destruct (getFeatureFlag w h "customBranch" publicOrgId) as [[|]|e]; simpl;
    try (repeat constructor; apply P_flag).
  constructor; [apply P_flag|]. apply after_the_checks_calls.
Qed.

End CallsOfARun.

(** X4.  In no run of [updateOrgTargets] is a project logger called with
    an empty sequence: [logUpdatedProjects] and [logFailedToUpdateProjects]
    always receive at least one record. *)
Theorem updateOrgTargets_never_logs_nothing w publicOrgId sources dry host h :
  Forall logs_something
    (run (updateOrgTargets w publicOrgId sources dry host) h).2.
Proof.
  apply updateOrgTargets_calls; try done.
  intros [] Hev; try exact I; destruct Hev.
Qed.

(** X6.  In every run of [updateOrgTargets] each call to the target lister
    is for the requested organisation, for the origin [github], with a page
    size of 100 and with empty targets excluded. *)
Theorem updateOrgTargets_lists_with_fixed_filters
    w publicOrgId sources dry host h :
  Forall (lists_supported publicOrgId)
    (run (updateOrgTargets w publicOrgId sources dry host) h).2.
Proof.
  apply updateOrgTargets_calls; try done.
  intros [] Hev; try exact I; destruct Hev.
Qed.

(** ** The log of failed syncs *)

Lemma updateTargets_mapper_failed_sync_of
    w orgId dry host loggingPath targets t :
  t ∈ targets ->
  emits (failed_sync_of orgId loggingPath targets)
        (updateTargets_mapper w orgId dry host loggingPath t).
Proof.
  intros Ht.
  unfold updateTargets_mapper, updateTargets_try, updateTargets_after_sync,
    updateTargets_catch, syncProjectsForTarget, syncProject,
    BranchDecisionMaker.
  emits_cases fail ltac:(simpl; first [exact I | done]).
Qed.

(** X3.  Every call to [logFailedSync] in a run of [updateTargets] is for
    the organisation of the batch, for one of its targets, and with the
    logging path that the resolver returned at the start of the batch. *)
Theorem updateTargets_logs_failed_syncs_of_its_targets
    w orgId targets dry host h o t m loggingPath r :
  EvLogFailedSync o t m loggingPath r
    ∈ (run (updateTargets w orgId targets dry host) h).2 ->
  o = orgId /\ t ∈ targets /\ getLoggingPath w h = Returned loggingPath.
Proof.
  unfold run, updateTargets, invoke, bind at 1, call.
  destruct (getLoggingPath w h) as [lp|e] eqn:Hpath; simpl.
  - pose proof (emits_bind (failed_sync_of orgId lp targets)
                  (pMap (updateTargets_mapper w orgId dry host lp) targets)
                  (fun _ => l <- get ;;
                            ret {| processedTargets := var_processedTargets l;
                                   meta := {| projects :=
                                     {| updated := var_updatedProjects l;
                                        failed := var_failedProjects l |} |} |}))
      as Hemits.
    specialize (Hemits
      (emits_pMap_in _ _ _
         (fun t Ht => updateTargets_mapper_failed_sync_of
                        w orgId dry host lp targets t Ht))).
    specialize (Hemits ltac:(intros; emits_cases fail fail)
                       (h ++ [EvGetLoggingPath (Returned lp)])
                       {| var_processedTargets := 0;
                          var_updatedProjects := [];
                          var_failedProjects := [] |}).
    unfold events_of in Hemits.
    destruct (bind _ _ (h ++ _) _) as [[r0 evs0] l0]. simpl in *.
    intros [?|Hin]%elem_of_cons; [done|].
    rewrite Forall_forall in Hemits. apply Hemits in Hin. simpl in Hin.
    destruct Hin as (-> & -> & Ht). done.
  - intros [?|?%elem_of_nil]%elem_of_cons; done.
Qed.

Lemma updateTargets_logs_failed_syncs_of_its_targets_witness :
  "xxx" = "xxx" /\
  (Scenario.bar ∈ [Scenario.bar]) /\
  getLoggingPath Scenario.listing_rejected [] = Returned ".".
Proof.
  apply (updateTargets_logs_failed_syncs_of_its_targets
           Scenario.listing_rejected "xxx" [Scenario.bar] false None []
           "xxx" Scenario.bar None "." (Returned tt)).
  vm_compute. do 3 apply list_elem_of_further. apply list_elem_of_here.
Defined.

(** ** The feature flag *)

(** X5.  A run of [updateOrgTargets] reads the feature flag at most once:
    with no supported source it calls nothing at all; otherwise its first
    call is the query of ['customBranch'] for the organisation and no later
    call goes to the flag reader; and a run that returns has read [false]. *)
Theorem updateOrgTargets_reads_the_flag_once
    w publicOrgId sources dry host h :
  match allowedSources sources with
  | [] => (run (updateOrgTargets w publicOrgId sources dry host) h).2 = []
  | _ :: _ =>
      exists r rest,
        (run (updateOrgTargets w publicOrgId sources dry host) h).2
          = EvGetFeatureFlag "customBranch" publicOrgId r :: rest /\
        Forall (fun ev => ~ from_flag_reader ev) rest /\
        forall res,
          (run (updateOrgTargets w publicOrgId sources dry host) h).1
            = Returned res ->
          r = Returned false
  end.
Proof.
  unfold run. rewrite updateOrgTargets_checks.
  destruct (allowedSources sources) as [|source rest] eqn:Hallowed; [done|].
  rewrite bool_decide_eq_false_2 by done. simpl.
  destruct (getFeatureFlag w h "customBranch" publicOrgId) as [[|]|e]; simpl.
  - eexists _, _. split; [reflexivity|]. split; [constructor | done].
  - eexists _, _. split; [reflexivity|]. split; [|done].
    apply (after_the_checks_no_flag w publicOrgId dry host (source :: rest)).
  - eexists _, _. split; [reflexivity|]. split; [constructor | done].
Qed.

(** ** Sources *)

Lemma allowedSources_idempotent sources :
  allowedSources (allowedSources sources) = allowedSources sources.
Proof.
  unfold allowedSources. induction sources as [|s rest IH]; [done|].
  destruct (decide (s ∈ SupportedIntegrationTypesUpdateProject_values)).
  - rewrite !filter_cons_True by done. by rewrite IH.
  - by rewrite filter_cons_False.
Qed.

(** X7.  Unsupported entries of the requested sources are ignored: a run
    on the requested sources is the run on the supported ones among them,
    in the order and with the repetitions of the request. *)
Theorem updateOrgTargets_ignores_unsupported_sources
    w publicOrgId sources dry host h :
  run (updateOrgTargets w publicOrgId sources dry host) h =
  run (updateOrgTargets w publicOrgId (allowedSources sources) dry host) h.
Proof.
  unfold run. rewrite !updateOrgTargets_checks.
  by rewrite allowedSources_idempotent.
Qed.





(** ** The reported log files *)

Lemma resolve_log_file_returned {L} w name h (l : L) file evs l' :
  resolve_log_file w name h l = (Returned file, evs, l') ->
  resolved_as w name evs file.
Proof.
  unfold resolve_log_file, try_catch, bind, call, message_of, emit, ret, throw.
  destruct (getLoggingPath w h) as [dir|[|m]]; simpl; [|done|].
  - intros [= <- <- _]. left. by exists dir.
  - intros [= <- <- _]. right. by exists m.
Qed.

(** X10.  A run of [updateOrgTargets] that returns ends with the two
    guarded resolutions of its log files, first the log of updated projects
    and then the log of failed updates; each reported file name is the
    fixed name resolved against the logging directory or, when the resolver
    threw, the bare fixed name after a warning with the error's message. *)
Theorem updateOrgTargets_reports_its_log_files
    w publicOrgId sources dry host h r evs :
  run (updateOrgTargets w publicOrgId sources dry host) h = (Returned r, evs) ->
  exists before e1 e2,
    evs = before ++ e1 ++ e2 /\
    resolved_as w "updated-projects.log" e1 (fileName r) /\
    resolved_as w "failed-to-update-projects.log" e2 (failedFileName r).
Proof.
  unfold run. rewrite updateOrgTargets_checks.
  case_bool_decide; [done|].
  destruct (getFeatureFlag w h "customBranch" publicOrgId) as [[|]|e];
    simpl; [done| |done].
  set (h1 := h ++ [_]). set (query := EvGetFeatureFlag _ _ _).
  destruct (after_the_checks _ _ _ _ _ h1 _) as [[r0 evs0] res'] eqn:Hrun.
  unfold result_of, events_of. simpl. intros [= -> <-].
  unfold after_the_checks in Hrun.
  apply bind_returned_inv in Hrun as (() & e1 & res1 & e2 & Hmap & Hrun & ->).
  apply bind_returned_inv in Hrun as (f1 & e3 & res2 & e4 & Hf1 & Hrun & ->).
  apply bind_returned_inv in Hrun as (f2 & e5 & res3 & e6 & Hf2 & Hrun & ->).
  injection Hrun as <- <- <-.
  apply resolve_log_file_returned in Hf1, Hf2.
  exists (query :: e1), e3, e5. by rewrite app_nil_r.
Qed.

Lemma updateOrgTargets_reports_its_log_files_witness :
  match
    run (updateOrgTargets Scenario.two_targets "xxx" [GITHUB] true None) []
  with
  | (Returned r, evs) =>
      exists before e1 e2,
        evs = before ++ e1 ++ e2 /\
        resolved_as Scenario.two_targets "updated-projects.log" e1
          (fileName r) /\
        resolved_as Scenario.two_targets "failed-to-update-projects.log" e2
          (failedFileName r)
  | (Thrown _, _) => False
  end.
Proof.
  destruct (run (updateOrgTargets Scenario.two_targets "xxx" [GITHUB] true
                   None) [])
    as [[r|e] evs] eqn:Hrun; [|vm_compute in Hrun; discriminate Hrun].
  exact (updateOrgTargets_reports_its_log_files
           Scenario.two_targets "xxx" [GITHUB] true None [] r evs Hrun).
Defined.

(** ** Targets listed and targets processed *)

Lemma listed_targets_app e1 e2 :
  listed_targets (e1 ++ e2) = listed_targets e1 + listed_targets e2.
Proof. unfold listed_targets. by rewrite map_app, sum_list_with_app. Qed.

(** The count of a batch that settles, whatever the variables of its
    caller. *)
Lemma updateTargets_bounded {L} w orgId targets dry host h (l : L) r evs l' :
  updateTargets w orgId targets dry host h l = (Returned r, evs, l') ->
  processedTargets r <= length targets.
Proof.
  unfold updateTargets, invoke.
  destruct (bind _ _ h _) as [[r0 evs0] l0] eqn:Hbody.
  intros [= -> -> _].
  apply bind_returned_inv in Hbody
    as (loggingPath & e1 & l1 & e2 & Hpath & Hbody & ->).
  apply bind_returned_inv in Hbody as (() & e3 & l3 & e4 & Hmap & Hbody & ->).
  injection Hbody as <- <- <-.
  unfold call in Hpath. injection Hpath as _ <- <-.
  apply pMap_updateTargets_counts in Hmap. simpl in Hmap |- *. lia.
Qed.

Lemma updateOrgTargets_source_bounded
    {L} w publicOrgId dry host source h (l : L) response evs l' :
  updateOrgTargets_source w publicOrgId dry host source h l
    = (Returned response, evs, l') ->
  processedTargets response <= listed_targets evs.
Proof.
  unfold updateOrgTargets_source.
  intros (() & e1 & l1 & e2 & _ & Hsource & ->)%bind_returned_inv.
  apply bind_returned_inv in Hsource
    as (targets & e3 & l3 & e4 & Hlist & Hbatch & ->).
  unfold call in Hlist. injection Hlist as Htargets <- <-.
  apply updateTargets_bounded in Hbatch.
  rewrite !listed_targets_app. unfold listed_targets at 2. simpl.
  rewrite Htargets. lia.
Qed.

Lemma pMap_sources_bounded w publicOrgId dry host allowed h res evs res' :
  pMap (updateOrgTargets_mapper w publicOrgId dry host) allowed h res
    = (Returned tt, evs, res') ->
  processedTargets res' <= processedTargets res + listed_targets evs.
Proof.
  revert h res evs res'. induction allowed as [|s rest IH];
    intros h res evs res'.
  - intros [= <- <-]. lia.
  - rewrite pMap_cons.
    intros (() & e1 & l1 & e2 & Hmapper & Hrest & ->)%bind_returned_inv.
    unfold updateOrgTargets_mapper in Hmapper.
    apply bind_returned_inv in Hmapper
      as (response & e1' & l1' & e2' & Hsource & Hmerge & ->).
    injection Hmerge as <- <-.
    pose proof Hsource as Hframe.
    rewrite updateOrgTargets_source_frame in Hframe.
    injection Hframe as _ _ <-.
    apply updateOrgTargets_source_bounded in Hsource.
    apply IH in Hrest. simpl in Hrest.
    rewrite !listed_targets_app. unfold listed_targets at 2. simpl. lia.
Qed.

(** X11.  A run of [updateOrgTargets] that returns never reports more
    processed targets than the target lister returned to it. *)
Theorem updateOrgTargets_processes_only_listed_targets
    w publicOrgId sources dry host h r evs :
  run (updateOrgTargets w publicOrgId sources dry host) h = (Returned r, evs) ->
  org_processedTargets r <= listed_targets evs.
Proof.
  unfold run. rewrite updateOrgTargets_checks.
  case_bool_decide; [done|].
  destruct (getFeatureFlag w h "customBranch" publicOrgId) as [[|]|e];
    simpl; [done| |done].
  set (h1 := h ++ [_]). set (query := EvGetFeatureFlag _ _ _).
  destruct (after_the_checks _ _ _ _ _ h1 _) as [[r0 evs0] res'] eqn:Hrun.
  unfold result_of, events_of. simpl. intros [= -> <-].
  unfold after_the_checks in Hrun.
  apply bind_returned_inv in Hrun as (() & e1 & res1 & e2 & Hmap & Hrun & ->).
  apply bind_returned_inv in Hrun as (f1 & e3 & res2 & e4 & Hf1 & Hrun & ->).
  apply bind_returned_inv in Hrun as (f2 & e5 & res3 & e6 & Hf2 & Hrun & ->).
  injection Hrun as <- <- <-.
  pose proof (resolve_log_file_locals w UPDATED_PROJECTS_LOG_NAME
                (h1 ++ e1) res1) as Hl1.
  rewrite Hf1 in Hl1. simpl in Hl1. subst res2.
  pose proof (resolve_log_file_locals w FAILED_UPDATE_PROJECTS_LOG_NAME
                ((h1 ++ e1) ++ e3) res1) as Hl2.
  rewrite Hf2 in Hl2. simpl in Hl2. subst res3.
  apply pMap_sources_bounded in Hmap. simpl in Hmap |- *.
  change (query :: e1 ++ e3 ++ e5 ++ []) with ([query] ++ e1 ++ e3 ++ e5 ++ []).
  rewrite !listed_targets_app. lia.
Qed.

Lemma updateOrgTargets_processes_only_listed_targets_witness :
  match
    run (updateOrgTargets Scenario.two_targets "xxx" [GITHUB] true None) []
  with
  | (Returned r, evs) => org_processedTargets r <= listed_targets evs
  | (Thrown _, _) => False
  end.
Proof.
  destruct (run (updateOrgTargets Scenario.two_targets "xxx" [GITHUB] true
                   None) [])
    as [[r|e] evs] eqn:Hrun; [|vm_compute in Hrun; discriminate Hrun].
  exact (updateOrgTargets_processes_only_listed_targets
           Scenario.two_targets "xxx" [GITHUB] true None [] r evs Hrun).
Defined.

(** ** One log of a failed sync per target *)

Lemma failed_sync_logs_none evs :
  Forall (fun ev => is_failed_sync_log ev = false) evs ->
  failed_sync_logs evs = 0.
Proof.
  unfold failed_sync_logs. induction 1 as [|ev evs Hev _ IH]; [done|].
  simpl. by rewrite Hev.
Qed.

Lemma syncProjectsForTarget_logs_no_failed_sync {L} w orgId t dry host :
  emits (fun ev => is_failed_sync_log ev = false)
        (@syncProjectsForTarget L w orgId t dry host).
Proof.
  unfold syncProjectsForTarget, syncProject, BranchDecisionMaker.
  emits_cases fail ltac:(reflexivity).
Qed.

Lemma updateTargets_after_sync_logs_no_failed_sync w orgId r :
  emits (fun ev => is_failed_sync_log ev = false)
        (updateTargets_after_sync w orgId r).
Proof.
  unfold updateTargets_after_sync. emits_cases fail ltac:(reflexivity).
Qed.

Lemma updateTargets_mapper_logs_once w orgId dry host loggingPath t h l evs l' :
  updateTargets_mapper w orgId dry host loggingPath t h l
    = (Returned tt, evs, l') ->
  failed_sync_logs evs <= 1.
Proof.
  unfold updateTargets_mapper, updateTargets_try.
  pose proof (syncProjectsForTarget_logs_no_failed_sync
                w orgId t dry host h l) as Hes.
  apply failed_sync_logs_none in Hes.
  destruct (syncProjectsForTarget w orgId t dry host h l)
    as [[[r|e] es] l0] eqn:Hsync;
    change (failed_sync_logs es = 0) in Hes.
  - pose proof (updateTargets_after_sync_logs_no_failed_sync
                  w orgId r (h ++ es) l0) as Hea.
    apply failed_sync_logs_none in Hea.
    destruct (updateTargets_after_sync w orgId r (h ++ es) l0)
      as [[[[]|e] ea] la] eqn:Hafter;
      change (failed_sync_logs ea = 0) in Hea.
    + erewrite try_catch_returned;
        [|erewrite bind_returned by exact Hsync; rewrite Hafter; reflexivity].
      intros [= <- <-]. rewrite failed_sync_logs_app.
      unfold events_of. cbn [fst snd]. lia.
    + erewrite try_catch_thrown;
        [|erewrite bind_returned by exact Hsync; rewrite Hafter; reflexivity].
      unfold result_of, events_of, locals_of. simpl.
      destruct (updateTargets_catch w orgId loggingPath t e _ la)
        as [[rh eh] lh] eqn:Hcatch.
      simpl. intros [= -> <- <-].
      apply updateTargets_catch_returned in Hcatch as [_ Hone].
      rewrite !failed_sync_logs_app. unfold events_of. cbn [fst snd]. lia.
  - erewrite try_catch_thrown; [|by apply bind_thrown].
    unfold result_of, events_of, locals_of.
    destruct (updateTargets_catch w orgId loggingPath t e _ l0)
      as [[rh eh] lh] eqn:Hcatch.
    simpl. intros [= -> <- <-].
    apply updateTargets_catch_returned in Hcatch as [_ Hone].
    rewrite failed_sync_logs_app. lia.
Qed.

(** X12.  A batch that settles has called [logFailedSync] at most once per
    target. *)
Theorem updateTargets_logs_a_failed_sync_once
    w orgId targets dry host h r evs :
  run (updateTargets w orgId targets dry host) h = (Returned r, evs) ->
  failed_sync_logs evs <= length targets.
Proof.
  unfold run, updateTargets, invoke.
  destruct (bind _ _ h _) as [[r0 evs0] l0] eqn:Hbody.
  simpl. intros [= -> ->].
  apply bind_returned_inv in Hbody
    as (loggingPath & e1 & l1 & e2 & Hpath & Hbody & ->).
  apply bind_returned_inv in Hbody as (() & e3 & l3 & e4 & Hmap & Hbody & ->).
  injection Hbody as <- <- <-.
  unfold call in Hpath. injection Hpath as _ <- <-.
  rewrite app_nil_r.
  assert (failed_sync_logs e3 <= length targets) as Hbound.
  { clear -Hmap. revert Hmap.
    generalize (h ++ [EvGetLoggingPath (getLoggingPath w h)]).
    generalize {| var_processedTargets := 0;
                  var_updatedProjects := [];
                  var_failedProjects := [] |}.
    revert e3 l3. induction targets as [|t rest IH]; intros e3 l3 l0 h0.
    - by intros [= <- <-].
    - rewrite pMap_cons.
      intros (() & ea & la & eb & Ht & Hrest & ->)%bind_returned_inv.
      apply updateTargets_mapper_logs_once in Ht. apply IH in Hrest.
      rewrite failed_sync_logs_app. simpl. lia. }
  unfold failed_sync_logs in *. simpl. lia.
Qed.

Lemma updateTargets_logs_a_failed_sync_once_witness :
  match
    run (updateTargets Scenario.listing_rejected "xxx"
           [Scenario.bar; Scenario.foo] false None) []
  with
  | (Returned r, evs) => failed_sync_logs evs <= 2
  | (Thrown _, _) => False
  end.
Proof.
  destruct (run (updateTargets Scenario.listing_rejected "xxx"
                   [Scenario.bar; Scenario.foo] false None) [])
    as [[r|e] evs] eqn:Hrun; [|vm_compute in Hrun; discriminate Hrun].
  exact (updateTargets_logs_a_failed_sync_once
           Scenario.listing_rejected "xxx" [Scenario.bar; Scenario.foo]
           false None [] r evs Hrun).
Defined.
